(** * The goja object model: properties, prototypes, enumeration, weak maps

    A shallow embedding of [object.go] and [builtin_weakmap.go].

    Go pointers become addresses into an explicit heap; every function that
    mutates through a pointer takes the heap and returns the new one.  A Go
    interface value of type [Value] is an optional dynamically typed value:
    [None] is the nil interface.  A panic carrying a JS exception is the
    [Raise] result, which keeps the heap of that moment.  Loops that follow
    the prototype chain are bounded by a fuel argument; [NoResult] is the
    answer when the fuel runs out (or when a pointer leads outside the heap,
    which Go's memory safety excludes).  Every object is a [baseObject] or a
    [weakMapObject], which embeds one; symbol-keyed properties are left
    out. *)

From stdpp Require Import gmap strings list fin_maps.

Set Warnings "-clear-no-such-hyp".

(** ** Pointers and values *)

(** [*Object] *)
Abbreviation addr := positive.
(** [*valueProperty] *)
Abbreviation ploc := positive.
(** [*weakCollections]; [id()] is the pointer converted to [uintptr] *)
Abbreviation regid := positive.
(** [*weakMap], the only [weakCollection] of the two files *)
Abbreviation wmid := positive.

(** Modelled from the spec: the types that implement [Value] are declared
    outside the two files, [*Object] apart.  These are the ones the two files
    tell apart: the "undefined" and null values, primitives, objects, and the
    "reified descriptor" [*valueProperty].  A [*Object] stored in an
    interface keeps its pointer, and the pointer may be nil: the interface is
    then still not the nil interface. *)
Inductive val : Type :=
  | valueUndefined
  | valueNull
  | valueBool (b : bool)
  | valueInt (n : Z)
  | valueString (s : string)
  | ObjectPtr (p : option addr)
  | valuePropertyPtr (p : ploc).

Abbreviation Value := (option val).

(** Modelled from the spec: the constants [_undefined], [_null], [valueTrue],
    [valueFalse] and [__proto__] are declared outside the two files; the last
    is the name of the "[[Prototype]]" pseudo-key. *)
Definition _undefined : Value := Some valueUndefined.
Definition _null : Value := Some valueNull.
Definition valueTrue : Value := Some (valueBool true).
Definition valueFalse : Value := Some (valueBool false).
Definition __proto__ : string := "__proto__".

#[global] Instance val_eq_dec : EqDecision val.
Proof. solve_decision. Defined.

(** Modelled from the spec: [Flag] and its method [Bool] are declared outside
    the two files.  A requested descriptor applies "only the attributes
    explicitly present", so an attribute is not set, false or true, and it
    reads as a boolean that is true only when it is set to true. *)
Inductive Flag : Type := FLAG_NOT_SET | FLAG_FALSE | FLAG_TRUE.

#[global] Instance Flag_eq_dec : EqDecision Flag.
Proof. solve_decision. Defined.

Definition Flag_Bool (f : Flag) : bool :=
  match f with FLAG_TRUE => true | _ => false end.

Record PropertyDescriptor : Type := mkDescr {
  dValue : Value;
  dWritable : Flag;
  dConfigurable : Flag;
  dEnumerable : Flag;
  dGetter : Value;
  dSetter : Value
}.

(** Modelled from the spec: the struct [valueProperty] is declared outside
    the two files; its fields are the ones [object.go] reads and writes, "a
    reified descriptor carrying value, getter/setter, writable, enumerable,
    configurable".  It is always reached by pointer. *)
Record valueProperty : Type := mkProp {
  value : Value;
  writable : bool;
  configurable : bool;
  enumerable : bool;
  accessor : bool;
  getterFunc : option addr;
  setterFunc : option addr
}.

(** [&valueProperty{}] *)
Definition zeroProp : valueProperty :=
  mkProp None false false false false None None.

(** [Object] together with the [baseObject] behind its [self] field.  The
    field [val] of [baseObject] points back to the [Object], so both live at
    one address.  [wm] is [Some m] when [self] is a [*weakMapObject] whose
    field [m] is the weak map [m]. *)
Record Object : Type := mkObject {
  class : string;
  prototype : option addr;
  extensible : bool;
  values : gmap string Value;
  propNames : list string;
  weakColls : option regid;
  wm : option wmid
}.

Record Heap : Type := mkHeap {
  objs : gmap addr Object;
  props : gmap ploc valueProperty;
  (** [weakCollections.colls] of every registry *)
  regs : gmap regid (list wmid);
  (** [weakMap.data] of every weak map *)
  wmaps : gmap wmid (gmap regid Value)
}.

Definition setObj (h : Heap) (a : addr) (o : Object) : Heap :=
  mkHeap (<[a := o]> (objs h)) (props h) (regs h) (wmaps h).

Definition setProp (h : Heap) (l : ploc) (p : valueProperty) : Heap :=
  mkHeap (objs h) (<[l := p]> (props h)) (regs h) (wmaps h).

Definition withPrototype (o : Object) (p : option addr) : Object :=
  mkObject (class o) p (extensible o) (values o) (propNames o) (weakColls o) (wm o).

Definition withValues (o : Object) (vs : gmap string Value) (ns : list string) : Object :=
  mkObject (class o) (prototype o) (extensible o) vs ns (weakColls o) (wm o).

Definition withWeakColls (o : Object) (r : option regid) : Object :=
  mkObject (class o) (prototype o) (extensible o) (values o) (propNames o) r (wm o).

(** ** Results *)

Inductive exn : Type :=
  | ErrNotExtensible      (* "%s is not extensible" *)
  | ErrCyclicProto        (* "Cyclic __proto__ value" *)
  | ErrReadOnly           (* "Cannot assign to read only property '%s'" *)
  | ErrRedefine           (* "Cannot redefine property: %s" *)
  | ErrPlain              (* typeErrorResult(throw) without a message *)
  | ErrDelete             (* "Cannot delete property '%s' of %s" *)
  | ErrNotObject          (* toObject on something that is no object *)
  | ErrReceiver           (* "... called on incompatible receiver %s" *)
  | ErrAccessor.          (* propGetter/propSetter refusing a function *)

(** [Raise h e]: a panic with the exception [e], raised when the heap was
    [h]. *)
Inductive result (A : Type) : Type :=
  | Ret (a : A)
  | Raise (h : Heap) (e : exn)
  | NoResult.
Arguments Ret {A} a.
Arguments Raise {A} h e.
Arguments NoResult {A}.

#[global] Instance result_bind : MBind result := fun A B k m =>
  match m with
  | Ret a => k a
  | Raise h e => Raise h e
  | NoResult => NoResult
  end.

Definition ofOption {A : Type} (o : option A) : result A :=
  match o with Some a => Ret a | None => NoResult end.

(** [o.values[name]]: a missing key reads as the nil interface. *)
Definition valueAt (o : Object) (name : string) : Value :=
  default None (values o !! name).

(** [baseObject.getOwnPropStr] *)
Definition getOwnPropStr (o : Object) (name : string) : Value :=
  match valueAt o name with
  | None => if String.eqb name __proto__ then Some (ObjectPtr (prototype o)) else None
  | Some v => Some v
  end.

(** [baseObject.hasOwnPropertyStr] *)
Definition hasOwnPropertyStr (o : Object) (name : string) : bool :=
  match valueAt o name with None => false | Some _ => true end.

(** [baseObject.getPropStr]: own property first, then the prototype's. *)
Fixpoint getPropStr (fuel : nat) (h : Heap) (a : addr) (name : string) : result Value :=
  match fuel with
  | O => NoResult
  | S n =>
    o ← ofOption (objs h !! a);
    match getOwnPropStr o name with
    | Some v => Ret (Some v)
    | None =>
      match prototype o with
      | Some p => getPropStr n h p name
      | None => Ret None
      end
    end
  end.

(** [baseObject.hasPropertyStr] *)
Definition hasPropertyStr (fuel : nat) (h : Heap) (a : addr) (name : string) : result bool :=
  v ← getPropStr fuel h a name;
  Ret (match v with None => false | Some _ => true end).

(** ** Calls into code outside the two files *)

(** Modelled from the spec: [Runtime.typeErrorResult] is declared outside the
    two files.  A failure is reported by "an optional side-effecting raise,
    selected by a caller-supplied throwOnFailure flag": with the flag the
    type error is raised, without it the call returns and the caller goes on
    to its own [return]. *)
Definition typeErrorResult {A : Type} (h : Heap) (throw : bool) (e : exn)
    (otherwise : A) : result A :=
  if throw then Raise h e else Ret otherwise.

(** Modelled from the spec: [valueProperty.isWritable] is declared outside the
    two files.  Assignment overwrites a data property "unless non-writable"
    and, on an accessor, "invoke[s] its setter": a property takes an
    assignment when it is writable or carries a setter. *)
Definition isWritable (p : valueProperty) : bool :=
  writable p || bool_decide (setterFunc p ≠ None).

(** What a read hands back: a value, or the call of a getter function with
    the receiver as [this], which is where [getStr] ends when the property is
    an accessor. *)
Inductive getOutcome : Type :=
  | GetVal (v : Value)
  | GetCall (getter this : addr).

(** Modelled from the spec: [valueProperty.get] is declared outside the two
    files.  "Accessor properties are invoked with the original receiver";
    without a getter the stored value is the answer, "undefined" when the
    slot is empty. *)
Definition valueProperty_get (p : valueProperty) (this : addr) : getOutcome :=
  match getterFunc p with
  | Some f => GetCall f this
  | None => GetVal (match value p with Some v => Some v | None => _undefined end)
  end.

(** How an assignment ends: the heap after a normal return, a rejection that
    the caller asked not to be raised, or the call of a setter function with
    the receiver as [this] and the new value as argument. *)
Inductive putOutcome : Type :=
  | PutDone (h : Heap)
  | PutRejected
  | PutSetter (setter this : addr) (v : Value).

Definition withValue (p : valueProperty) (v : Value) : valueProperty :=
  mkProp v (writable p) (configurable p) (enumerable p) (accessor p)
         (getterFunc p) (setterFunc p).

(** Modelled from the spec: [valueProperty.set] is declared outside the two
    files.  A property with a setter "invoke[s] its setter"; otherwise the
    stored value is "overwrite[n] in place", through the pointer. *)
Definition valueProperty_set (h : Heap) (l : ploc) (p : valueProperty)
    (this : addr) (v : Value) : putOutcome :=
  match setterFunc p with
  | Some f => PutSetter f this v
  | None => PutDone (setProp h l (withValue p v))
  end.

(** ** Reading *)

(** [baseObject.getStr] *)
Definition getStr (fuel : nat) (h : Heap) (a : addr) (name : string) : result getOutcome :=
  p ← getPropStr fuel h a name;
  match p with
  | Some (valuePropertyPtr l) =>
      vp ← ofOption (props h !! l);
      Ret (valueProperty_get vp a)
  | _ => Ret (GetVal p)
  end.

(** ** The prototype link *)

(** Modelled from the spec: [Object.SameAs] is declared outside the two
    files; objects are compared "by identity", and a nil pointer is the same
    as a nil pointer only. *)
Definition Object_SameAs (p q : option addr) : bool := bool_decide (p = q).

(** The loop of [setProto]: does the chain that starts at [p] pass through
    [target]?  [p.self.proto()] is [baseObject.proto], the [prototype] field. *)
Fixpoint protoChainHas (fuel : nat) (h : Heap) (p : option addr) (target : addr)
    : result bool :=
  match p with
  | None => Ret false
  | Some a =>
    if Object_SameAs (Some a) (Some target) then Ret true
    else
      match fuel with
      | O => NoResult
      | S n =>
        o ← ofOption (objs h !! a);
        protoChainHas n h (prototype o) target
      end
  end.

(** [baseObject.setProto]: the heap afterwards and the error object returned
    ([None] is Go's [nil]). *)
Definition setProto (fuel : nat) (h : Heap) (a : addr) (proto : option addr)
    : result (Heap * option exn) :=
  o ← ofOption (objs h !! a);
  if Object_SameAs (prototype o) proto then Ret (h, None)
  else if negb (extensible o) then Ret (h, Some ErrNotExtensible)
  else
    cyclic ← protoChainHas fuel h proto a;
    if (cyclic : bool) then Ret (h, Some ErrCyclicProto)
    else Ret (setObj h a (withPrototype o proto), None).

(** ** Writing *)

(** The tail of [putStr]: [o.values[name] = val] and the append to
    [propNames]. *)
Definition createOwn (h : Heap) (a : addr) (o : Object) (name : string) (v : Value) : Heap :=
  setObj h a (withValues o (<[name := v]> (values o)) (propNames o ++ [name])).

(** The lookup [putStr] makes when the object has no own entry: [pprop], the
    property of that name on the prototype chain, nil without a prototype. *)
Definition inheritedProp (fuel : nat) (h : Heap) (o : Object) (name : string)
    : result Value :=
  match prototype o with
  | Some p => getPropStr fuel h p name
  | None => Ret None
  end.

(** [baseObject.putStr] *)
Definition putStr (fuel : nat) (h : Heap) (a : addr) (name : string) (v : Value)
    (throw : bool) : result putOutcome :=
  o ← ofOption (objs h !! a);
  match values o !! name with
  | Some (Some (valuePropertyPtr l)) =>
      prop ← ofOption (props h !! l);
      if negb (isWritable prop) then typeErrorResult h throw ErrReadOnly PutRejected
      else Ret (valueProperty_set h l prop a v)
  | Some _ =>
      Ret (PutDone (setObj h a (withValues o (<[name := v]> (values o)) (propNames o))))
  | None =>
      if String.eqb name __proto__ then
        match v with
        | Some (ObjectPtr p) =>
            '(h', ex) ← setProto fuel h a p;
            match ex with Some e => Raise h' e | None => Ret (PutDone h') end
        | Some valueNull =>
            '(h', ex) ← setProto fuel h a None;
            match ex with Some e => Raise h' e | None => Ret (PutDone h') end
        | _ => Ret (PutDone h)
        end
      else
        pprop ← inheritedProp fuel h o name;
        match pprop with
        | Some (valuePropertyPtr l) =>
            prop ← ofOption (props h !! l);
            if negb (isWritable prop) then typeErrorResult h throw ErrPlain PutRejected
            else if accessor prop then Ret (valueProperty_set h l prop a v)
            else Ret (PutDone (createOwn h a o name v))
        | Some _ => Ret (PutDone (createOwn h a o name v))
        | None =>
            if negb (extensible o) then typeErrorResult h throw ErrPlain PutRejected
            else Ret (PutDone (createOwn h a o name v))
        end
  end.

(** ** Deleting *)

(** The loop of [baseObject._delete]: drop the first occurrence of [name]. *)
Fixpoint removeFirst (name : string) (l : list string) : list string :=
  match l with
  | [] => []
  | n :: l' => if String.eqb n name then l' else n :: removeFirst name l'
  end.

(** [baseObject._delete] *)
Definition _delete (h : Heap) (a : addr) (o : Object) (name : string) : Heap :=
  setObj h a (withValues o (delete name (values o)) (removeFirst name (propNames o))).

(** [baseObject.checkDelete] with [checkDeleteProp]: [true] lets the delete go
    on. *)
Definition checkDelete (h : Heap) (v : Value) : result bool :=
  match v with
  | Some (valuePropertyPtr l) =>
      prop ← ofOption (props h !! l);
      Ret (configurable prop)
  | _ => Ret true
  end.

(** [baseObject.deleteStr] *)
Definition deleteStr (h : Heap) (a : addr) (name : string) (throw : bool)
    : result (Heap * bool) :=
  o ← ofOption (objs h !! a);
  match values o !! name with
  | Some v =>
      ok ← checkDelete h v;
      if (ok : bool) then Ret (_delete h a o name, true)
      else typeErrorResult h throw ErrDelete (h, false)
  | None => Ret (h, true)
  end.

(** ** Defining a property *)

Definition withFlags (p : valueProperty) (d : PropertyDescriptor) : valueProperty :=
  mkProp (value p)
    (if decide (dWritable d = FLAG_NOT_SET) then writable p else Flag_Bool (dWritable d))
    (if decide (dConfigurable d = FLAG_NOT_SET) then configurable p
     else Flag_Bool (dConfigurable d))
    (if decide (dEnumerable d = FLAG_NOT_SET) then enumerable p
     else Flag_Bool (dEnumerable d))
    (accessor p) (getterFunc p) (setterFunc p).

(** [descr.Value != nil]: store the value, drop getter and setter; then
    [accessor = false] when a value or a writable flag was given. *)
Definition withData (p : valueProperty) (d : PropertyDescriptor) : valueProperty :=
  let p1 :=
    match dValue d with
    | Some v => mkProp (Some v) (writable p) (configurable p) (enumerable p)
                       (accessor p) None None
    | None => p
    end in
  if bool_decide (dValue d ≠ None) || bool_decide (dWritable d ≠ FLAG_NOT_SET)
  then mkProp (value p1) (writable p1) (configurable p1) (enumerable p1) false
              (getterFunc p1) (setterFunc p1)
  else p1.

Definition withGetter (p : valueProperty) (g : option addr) : valueProperty :=
  mkProp None (writable p) (configurable p) (enumerable p) true g (setterFunc p).

Definition withSetter (p : valueProperty) (s : option addr) : valueProperty :=
  mkProp None (writable p) (configurable p) (enumerable p) true (getterFunc p) s.

(** The last assignment of [_defineOwnProperty]. *)
Definition withDefault (p : valueProperty) : valueProperty :=
  if negb (accessor p) && bool_decide (value p = None) then withValue p _undefined else p.

(** The type assertion of [v] to [*Object] whose flag is dropped: nil when
    [v] is no [*Object]. *)
Definition asObject (v : Value) : option addr :=
  match v with Some (ObjectPtr p) => p | _ => None end.

Section DefineOwnProperty.

(** [Value.SameAs], the strict same-value comparison, is implemented by
    every value type outside the two files. *)
Variable SameAs : val -> Value -> bool.

(** [propGetter] and [propSetter], outside the two files: the function
    object to store, or [None] when they raise a type error. *)
Variable propGetter : Heap -> addr -> Value -> option (option addr).
Variable propSetter : Heap -> addr -> Value -> option (option addr).

(** The tests of [_defineOwnProperty] that end in [goto Reject], for an
    existing property. *)
Definition rejects (existing : valueProperty) (d : PropertyDescriptor) : bool :=
  let getterObj := asObject (dGetter d) in
  let setterObj := asObject (dSetter d) in
  (negb (configurable existing) &&
     (bool_decide (dConfigurable d = FLAG_TRUE) ||
      (bool_decide (dEnumerable d ≠ FLAG_NOT_SET) &&
       negb (Bool.eqb (Flag_Bool (dEnumerable d)) (enumerable existing)))))
  ||
  (if (accessor existing && bool_decide (dValue d ≠ None)) ||
      (negb (accessor existing) &&
         (bool_decide (getterObj ≠ None) || bool_decide (setterObj ≠ None)))
   then negb (configurable existing)
   else if negb (accessor existing) then
     negb (configurable existing) && negb (writable existing) &&
       (bool_decide (dWritable d = FLAG_TRUE) ||
        match dValue d with
        | Some dv => negb (SameAs dv (value existing))
        | None => false
        end)
   else
     negb (configurable existing) &&
       ((bool_decide (dGetter d ≠ None) &&
           bool_decide (getterFunc existing ≠ getterObj)) ||
        (bool_decide (dSetter d ≠ None) &&
           bool_decide (setterFunc existing ≠ setterObj)))).

(** The part of [_defineOwnProperty] after the tests.  [loc] is the pointer
    [existing] when the property was stored before: the record is then
    updated in place, step by step, and a panic of [propGetter] or
    [propSetter] leaves the steps before it in the heap.  Without it the
    record is fresh and reaches the heap when it is returned. *)
Definition applyDescr (h : Heap) (a : addr) (loc : option ploc)
    (existing : valueProperty) (d : PropertyDescriptor) : result (Heap * Value * bool) :=
  if bool_decide (dWritable d = FLAG_TRUE) && bool_decide (dEnumerable d = FLAG_TRUE) &&
     bool_decide (dConfigurable d = FLAG_TRUE) && bool_decide (dValue d ≠ None)
  then Ret (h, dValue d, true)
  else
    let store (p : valueProperty) : Heap :=
      match loc with Some l => setProp h l p | None => h end in
    let p1 := withData (withFlags existing d) d in
    p2 ← match dGetter d with
         | None => Ret p1
         | Some _ =>
           match propGetter h a (dGetter d) with
           | Some g => Ret (withGetter p1 g)
           | None => Raise (store p1) ErrAccessor
           end
         end;
    p3 ← match dSetter d with
         | None => Ret p2
         | Some _ =>
           match propSetter h a (dSetter d) with
           | Some s => Ret (withSetter p2 s)
           | None => Raise (store p2) ErrAccessor
           end
         end;
    let p4 := withDefault p3 in
    match loc with
    | Some l => Ret (setProp h l p4, Some (valuePropertyPtr l), true)
    | None =>
      let l := fresh (dom (props h)) in
      Ret (setProp h l p4, Some (valuePropertyPtr l), true)
    end.

(** [baseObject._defineOwnProperty] *)
Definition _defineOwnProperty (h : Heap) (a : addr) (o : Object)
    (existingValue : Value) (d : PropertyDescriptor) (throw : bool)
    : result (Heap * Value * bool) :=
  match existingValue with
  | None =>
      if negb (extensible o) then typeErrorResult h throw ErrPlain (h, None, false)
      else applyDescr h a None zeroProp d
  | Some (valuePropertyPtr l) =>
      existing ← ofOption (props h !! l);
      if rejects existing d then typeErrorResult h throw ErrRedefine (h, None, false)
      else applyDescr h a (Some l) existing d
  | Some v =>
      let existing := mkProp (Some v) true true true false None None in
      if rejects existing d then typeErrorResult h throw ErrRedefine (h, None, false)
      else applyDescr h a None existing d
  end.

(** [baseObject.defineOwnProperty] for a string key. *)
Definition defineOwnProperty (h : Heap) (a : addr) (name : string)
    (d : PropertyDescriptor) (throw : bool) : result (Heap * bool) :=
  o ← ofOption (objs h !! a);
  let existingVal := valueAt o name in
  '(h', v, ok) ← _defineOwnProperty h a o existingVal d throw;
  if (ok : bool) then
    Ret (setObj h' a
           (withValues o (<[name := v]> (values o))
              (match existingVal with
               | None => propNames o ++ [name]
               | Some _ => propNames o
               end)),
         true)
  else Ret (h', false).

End DefineOwnProperty.

(** ** Enumeration *)

Inductive enumerableFlag : Type := _ENUM_UNKNOWN | _ENUM_FALSE | _ENUM_TRUE.

Record propIterItem : Type := mkItem {
  item_name : string;
  item_value : Value;
  item_enumerable : enumerableFlag
}.

(** [propIterItem{}] *)
Definition noItem : propIterItem := mkItem "" None _ENUM_UNKNOWN.

(** [objectPropIter]: the state behind the method value [i.next].  [iter_o]
    points to the live object; [iter_propNames] is the copy made by
    [_enumerate]. *)
Record objectPropIter : Type := mkIter {
  iter_o : addr;
  iter_propNames : list string;
  iter_recursive : bool;
  iter_idx : nat
}.

(** [propFilterIter]: the state behind its [next].  The only functions ever
    wrapped are [objectPropIter.next] values; a nil [wrapped] ends the
    sequence before it is stored back, so the field is never nil here. *)
Record propFilterIter : Type := mkFilter {
  filter_wrapped : objectPropIter;
  filter_all : bool;
  filter_seen : gset string
}.

(** [baseObject._enumerate]: copy the names, start at index 0. *)
Definition _enumerate (h : Heap) (a : addr) (recursive : bool) : result objectPropIter :=
  o ← ofOption (objs h !! a);
  Ret (mkIter a (propNames o) recursive 0).

(** The [for] loop of [objectPropIter.next] over the names not yet visited:
    the first one whose value in the live object is not nil, with the index
    after it. *)
Fixpoint nextStored (o : Object) (rest : list string) (idx : nat)
    : option (string * Value * nat) :=
  match rest with
  | [] => None
  | name :: rest' =>
    match valueAt o name with
    | Some v => Some (name, Some v, S idx)
    | None => nextStored o rest' (S idx)
    end
  end.

(** [objectPropIter.next]: the item and the function to call next ([None] is
    the nil function). *)
Fixpoint objectPropIter_next (fuel : nat) (h : Heap) (i : objectPropIter)
    : result (propIterItem * option objectPropIter) :=
  match fuel with
  | O => NoResult
  | S n =>
    o ← ofOption (objs h !! iter_o i);
    match nextStored o (drop (iter_idx i) (iter_propNames i)) (iter_idx i) with
    | Some (name, v, idx') =>
        Ret (mkItem name v _ENUM_UNKNOWN,
             Some (mkIter (iter_o i) (iter_propNames i) (iter_recursive i) idx'))
    | None =>
        if iter_recursive i then
          match prototype o with
          | Some p =>
              i' ← _enumerate h p (iter_recursive i);
              objectPropIter_next n h i'
          | None => Ret (noItem, None)
          end
        else Ret (noItem, None)
    end
  end.

(** The tests of [propFilterIter.next] that end in [continue]. *)
Definition hidden (h : Heap) (item : propIterItem) : result bool :=
  match item_enumerable item with
  | _ENUM_FALSE => Ret true
  | _ENUM_TRUE => Ret false
  | _ENUM_UNKNOWN =>
    match item_value item with
    | Some (valuePropertyPtr l) =>
        prop ← ofOption (props h !! l);
        Ret (negb (enumerable prop))
    | _ => Ret false
    end
  end.

(** [propFilterIter.next] *)
Fixpoint propFilterIter_next (fuel : nat) (h : Heap) (f : propFilterIter)
    : result (propIterItem * option propFilterIter) :=
  match fuel with
  | O => NoResult
  | S n =>
    '(item, w) ← objectPropIter_next fuel h (filter_wrapped f);
    match w with
    | None => Ret (noItem, None)
    | Some w' =>
      if decide (item_name item ∈ filter_seen f) then
        propFilterIter_next n h (mkFilter w' (filter_all f) (filter_seen f))
      else
        let seen' := {[item_name item]} ∪ filter_seen f in
        skip ← (if filter_all f then Ret false else hidden h item);
        if (skip : bool) then propFilterIter_next n h (mkFilter w' (filter_all f) seen')
        else Ret (item, Some (mkFilter w' (filter_all f) seen'))
    end
  end.

(** [baseObject.enumerate] *)
Definition enumerate (h : Heap) (a : addr) (all recursive : bool) : result propFilterIter :=
  w ← _enumerate h a recursive;
  Ret (mkFilter w all ∅).

(** The consumer loop, as [baseObject.export] writes it: call the function
    until it hands back nil, collecting the items. *)
Fixpoint drain (fuel : nat) (h : Heap) (f : propFilterIter) : result (list propIterItem) :=
  match fuel with
  | O => NoResult
  | S n =>
    '(item, f') ← propFilterIter_next fuel h f;
    match f' with
    | None => Ret []
    | Some f'' =>
        rest ← drain n h f'';
        Ret (item :: rest)
    end
  end.

(** ** Weak references *)

(** The loop of [weakCollections.add]. *)
Fixpoint registered (c : wmid) (colls : list wmid) : bool :=
  match colls with
  | [] => false
  | ec :: colls' => if decide (ec = c) then true else registered c colls'
  end.

(** [weakCollections.add] on the slice [colls]. *)
Definition weakCollections_add (colls : list wmid) (c : wmid) : list wmid :=
  if registered c colls then colls else colls ++ [c].

(** The swap-with-last loop of [weakCollections.remove]. *)
Fixpoint swapRemove (c : wmid) (visited rest : list wmid) : list wmid :=
  match rest with
  | [] => visited
  | coll :: rest' =>
    if decide (coll = c) then
      match reverse rest' with
      | [] => visited
      | lst :: front => visited ++ lst :: reverse front
      end
    else swapRemove c (visited ++ [coll]) rest'
  end.

(** [weakCollections.remove].  [cap] is [cap(r.colls)], which depends on how
    Go's [append] grew the slice and is therefore an argument. *)
Definition weakCollections_remove (cap : nat) (colls : list wmid) (c : wmid) : list wmid :=
  if (16 <? cap) && (length colls <? Nat.shiftr cap 2)
  then filter (λ coll, coll ≠ c) colls
  else swapRemove c [] colls.

Definition setReg (h : Heap) (r : regid) (colls : list wmid) : Heap :=
  mkHeap (objs h) (props h) (<[r := colls]> (regs h)) (wmaps h).

Definition setData (h : Heap) (m : wmid) (data : gmap regid Value) : Heap :=
  mkHeap (objs h) (props h) (regs h) (<[m := data]> (wmaps h)).

(** [Object.getWeakCollRefs]: the registry of the object, allocated on first
    use.  The finalizer that [runtime.SetFinalizer] attaches runs when the
    collector finds the registry unreachable and is not part of this
    sequential model. *)
Definition getWeakCollRefs (h : Heap) (a : addr) : result (Heap * regid) :=
  o ← ofOption (objs h !! a);
  match weakColls o with
  | Some r => Ret (h, r)
  | None =>
    let r := fresh (dom (regs h)) in
    Ret (setReg (setObj h a (withWeakColls o (Some r))) r [], r)
  end.

(** [weakMap.set]; the mutex only matters to the finalizer goroutine. *)
Definition weakMap_set (h : Heap) (m : wmid) (key : addr) (v : Value) : result Heap :=
  '(h1, refs) ← getWeakCollRefs h key;
  data ← ofOption (wmaps h1 !! m);
  let h2 := setData h1 m (<[refs := v]> data) in
  colls ← ofOption (regs h2 !! refs);
  Ret (setReg h2 refs (weakCollections_add colls m)).

(** [weakMap.get] *)
Definition weakMap_get (h : Heap) (m : wmid) (key : addr) : result Value :=
  o ← ofOption (objs h !! key);
  match weakColls o with
  | None => Ret None
  | Some refs =>
    data ← ofOption (wmaps h !! m);
    Ret (default None (data !! refs))
  end.

(** [weakMap.has] *)
Definition weakMap_has (h : Heap) (m : wmid) (key : addr) : result bool :=
  o ← ofOption (objs h !! key);
  match weakColls o with
  | None => Ret false
  | Some refs =>
    data ← ofOption (wmaps h !! m);
    Ret (bool_decide (is_Some (data !! refs)))
  end.

(** [weakMap.remove] *)
Definition weakMap_remove (cap : nat) (h : Heap) (m : wmid) (key : addr)
    : result (Heap * bool) :=
  o ← ofOption (objs h !! key);
  match weakColls o with
  | None => Ret (h, false)
  | Some refs =>
    data ← ofOption (wmaps h !! m);
    match data !! refs with
    | Some _ =>
        let h1 := setData h m (delete refs data) in
        colls ← ofOption (regs h1 !! refs);
        Ret (setReg h1 refs (weakCollections_remove cap colls m), true)
    | None => Ret (h, false)
    end
  end.

Record FunctionCall : Type := mkCall {
  This : Value;
  Arguments : list Value
}.

(** [FunctionCall.Argument] *)
Definition Argument (f : FunctionCall) (idx : nat) : Value :=
  match Arguments f !! idx with
  | Some v => v
  | None => _undefined
  end.

(** Modelled from the spec: [Runtime.toObject] is declared outside the two
    files.  A key "must coerce to an object (non-object keys raise a type
    error)": an object is handed back, anything else raises.  A [*Object]
    interface around a nil pointer has nothing to hand back. *)
Definition toObject (h : Heap) (v : Value) : result addr :=
  match v with
  | Some (ObjectPtr (Some a)) => Ret a
  | Some (ObjectPtr None) => NoResult
  | _ => Raise h ErrNotObject
  end.

(** The type assertion of a value to [*Object] with its flag. *)
Definition isObjectPtr (v : Value) : option (option addr) :=
  match v with Some (ObjectPtr p) => Some p | _ => None end.

(** The common opening of the four prototype methods: the receiver must be an
    object whose [self] is a [*weakMapObject]. *)
Definition weakMapReceiver (h : Heap) (call : FunctionCall) : result wmid :=
  thisObj ← toObject h (This call);
  o ← ofOption (objs h !! thisObj);
  match wm o with
  | Some m => Ret m
  | None => Raise h ErrReceiver
  end.

(** [Runtime.weakMapProto_set] *)
Definition weakMapProto_set (h : Heap) (call : FunctionCall) : result (Heap * Value) :=
  m ← weakMapReceiver h call;
  key ← toObject h (Argument call 0);
  h' ← weakMap_set h m key (Argument call 1);
  Ret (h', This call).

(** [Runtime.weakMapProto_get] *)
Definition weakMapProto_get (h : Heap) (call : FunctionCall) : result Value :=
  m ← weakMapReceiver h call;
  res ← match isObjectPtr (Argument call 0) with
        | Some (Some key) => weakMap_get h m key
        | Some None => NoResult
        | None => Ret None
        end;
  Ret (match res with None => _undefined | Some v => Some v end).

(** [Runtime.weakMapProto_has] *)
Definition weakMapProto_has (h : Heap) (call : FunctionCall) : result Value :=
  m ← weakMapReceiver h call;
  match isObjectPtr (Argument call 0) with
  | Some (Some key) =>
      b ← weakMap_has h m key;
      Ret (if (b : bool) then valueTrue else valueFalse)
  | Some None => NoResult
  | None => Ret valueFalse
  end.

(** [Runtime.weakMapProto_delete] *)
Definition weakMapProto_delete (cap : nat) (h : Heap) (call : FunctionCall)
    : result (Heap * Value) :=
  m ← weakMapReceiver h call;
  match isObjectPtr (Argument call 0) with
  | Some (Some key) =>
      '(h', b) ← weakMap_remove cap h m key;
      Ret (h', if (b : bool) then valueTrue else valueFalse)
  | Some None => NoResult
  | None => Ret (h, valueFalse)
  end.

(** ** Further operations of [baseObject] *)

(** [baseObject._put]: the name is appended when the map has no entry for
    it. *)
Definition _put (h : Heap) (a : addr) (name : string) (v : Value) : result Heap :=
  o ← ofOption (objs h !! a);
  Ret (setObj h a
         (withValues o (<[name := v]> (values o))
            (match values o !! name with
             | Some _ => propNames o
             | None => propNames o ++ [name]
             end))).

(** [valueProp]: the value itself when all three flags are set, a freshly
    allocated record otherwise. *)
Definition valueProp (h : Heap) (v : Value) (w e c : bool) : Heap * Value :=
  if w && e && c then (h, v)
  else
    let l := fresh (dom (props h)) in
    (setProp h l (mkProp v w c e false None None), Some (valuePropertyPtr l)).

(** [baseObject._putProp] *)
Definition _putProp (h : Heap) (a : addr) (name : string) (v : Value)
    (w e c : bool) : result (Heap * Value) :=
  let '(h1, prop) := valueProp h v w e c in
  h2 ← _put h1 a name prop;
  Ret (h2, prop).

(** [baseObject._getStr] *)
Definition _getStr (fuel : nat) (h : Heap) (a : addr) (name : string)
    : result getOutcome :=
  o ← ofOption (objs h !! a);
  p ← match getOwnPropStr o name, prototype o with
      | None, Some pa => getPropStr fuel h pa name
      | p, _ => Ret p
      end;
  match p with
  | Some (valuePropertyPtr l) =>
      vp ← ofOption (props h !! l);
      Ret (valueProperty_get vp a)
  | _ => Ret (GetVal p)
  end.

Definition withExtensible (o : Object) (e : bool) : Object :=
  mkObject (class o) (prototype o) e (values o) (propNames o) (weakColls o) (wm o).

(** [baseObject.proto] *)
Definition proto (h : Heap) (a : addr) : result (option addr) :=
  o ← ofOption (objs h !! a);
  Ret (prototype o).

(** [baseObject.isExtensible] *)
Definition isExtensible (h : Heap) (a : addr) : result bool :=
  o ← ofOption (objs h !! a);
  Ret (extensible o).

(** [baseObject.preventExtensions] *)
Definition preventExtensions (h : Heap) (a : addr) : result Heap :=
  o ← ofOption (objs h !! a);
  Ret (setObj h a (withExtensible o false)).

(** ** Reclamation of a registry *)

(** [weakMap.removePtr] *)
Definition weakMap_removePtr (h : Heap) (m : wmid) (ptr : regid) : result Heap :=
  data ← ofOption (wmaps h !! m);
  Ret (setData h m (delete ptr data)).

(** The loop of [finalizeObjectWeakRefs]. *)
Fixpoint removePtrAll (h : Heap) (colls : list wmid) (id : regid) : result Heap :=
  match colls with
  | [] => Ret h
  | c :: colls' =>
    h1 ← weakMap_removePtr h c id;
    removePtrAll h1 colls' id
  end.

(** [finalizeObjectWeakRefs]: what the finalizer of the registry [r] does
    when the collector runs it. *)
Definition finalizeObjectWeakRefs (h : Heap) (r : regid) : result Heap :=
  colls ← ofOption (regs h !! r);
  h1 ← removePtrAll h colls r;
  Ret (setReg h1 r []).

(** * Specifications

    Predicates and list functions that the statements below are written
    with. *)

(** The registry under any sequence of its two operations. *)
Inductive registryOp : Type :=
  | OpAdd (c : wmid)
  | OpRemove (cap : nat) (c : wmid).

Definition applyOp (colls : list wmid) (op : registryOp) : list wmid :=
  match op with
  | OpAdd c => weakCollections_add colls c
  | OpRemove cap c => weakCollections_remove cap colls c
  end.

(** [onChain h target p]: [target] is [p] or an ancestor of [p] along the
    prototype links of [h]. *)
Inductive onChain (h : Heap) (target : addr) : option addr → Prop :=
  | onChain_here : onChain h target (Some target)
  | onChain_up (a : addr) (o : Object) :
      objs h !! a = Some o →
      onChain h target (prototype o) →
      onChain h target (Some a).

(** The objects on the prototype chain that starts at [p], nearest first. *)
Inductive protoChain (h : Heap) : option addr → list Object → Prop :=
  | protoChain_end : protoChain h None []
  | protoChain_step (a : addr) (o : Object) (cs : list Object) :
      objs h !! a = Some o →
      protoChain h (prototype o) cs →
      protoChain h (Some a) (o :: cs).

(** Every property record that the object stores is in the heap. *)
Definition recordsPresent (h : Heap) (o : Object) : Prop :=
  ∀ name l, valueAt o name = Some (valuePropertyPtr l) → is_Some (props h !! l).

(** The items behind a list of names of one object: the names that hold a
    value now, in the order of the list. *)
Definition storedItems (o : Object) (names : list string) : list propIterItem :=
  omap (λ name, (λ v, mkItem name (Some v) _ENUM_UNKNOWN) <$> valueAt o name) names.

(** The items of the objects of a chain, each under its own key order. *)
Definition chainItems (cs : list Object) : list propIterItem :=
  concat ((λ o, storedItems o (propNames o)) <$> cs).

(** What an [objectPropIter] has left to hand out, when it sits on the object
    [o] and [cs] are the objects above [o]. *)
Definition remaining (i : objectPropIter) (o : Object) (cs : list Object)
    : list propIterItem :=
  storedItems o (drop (iter_idx i) (iter_propNames i)) ++
  (if iter_recursive i then chainItems cs else []).

(** [hidden] as a boolean, for items whose record is in the heap. *)
Definition isHidden (h : Heap) (item : propIterItem) : bool :=
  match hidden h item with Ret b => b | _ => false end.

(** The filter of [propFilterIter] over a list of items. *)
Fixpoint filterItems (h : Heap) (all : bool) (seen : gset string)
    (items : list propIterItem) : list propIterItem :=
  match items with
  | [] => []
  | item :: rest =>
    if decide (item_name item ∈ seen) then filterItems h all seen rest
    else if negb all && isHidden h item
         then filterItems h all ({[item_name item]} ∪ seen) rest
         else item :: filterItems h all ({[item_name item]} ∪ seen) rest
  end.

(** The record behind an item, if it has one, is in the heap. *)
Definition itemPresent (h : Heap) (item : propIterItem) : Prop :=
  ∃ b, hidden h item = Ret b.

(** An own key shows: it holds a value, and it is enumerable unless every
    key was asked for. *)
Definition visibleOwn (h : Heap) (o : Object) (all : bool) (k : string) : Prop :=
  ∃ v, valueAt o k = Some v ∧
       (all = true ∨ isHidden h (mkItem k (Some v) _ENUM_UNKNOWN) = false).

(** The storage of an object is in step: [propNames] lists every key of
    [values] once, and no key holds the nil interface. *)
Definition keysInSync (o : Object) : Prop :=
  NoDup (propNames o) ∧
  (∀ k, k ∈ propNames o ↔ is_Some (values o !! k)) ∧
  (∀ k, values o !! k ≠ Some None).

(** Registries and weak maps agree: a registry lists no map twice, and a map
    holds an entry under a registry's id exactly when that registry lists
    it. *)
Definition consistentMaps (R : gmap regid (list wmid))
    (W : gmap wmid (gmap regid Value)) : Prop :=
  (∀ r colls, R !! r = Some colls → NoDup colls) ∧
  (∀ m data r, W !! m = Some data →
     (is_Some (data !! r) ↔ ∃ colls, R !! r = Some colls ∧ m ∈ colls)).

Definition weakConsistent (h : Heap) : Prop := consistentMaps (regs h) (wmaps h).

(** The value a name resolves to along a list of objects, nearest first: the
    first stored one, nil when no object stores the name. *)
Fixpoint nearestValue (name : string) (os : list Object) : Value :=
  match os with
  | [] => None
  | o :: os' =>
    match valueAt o name with
    | Some v => Some v
    | None => nearestValue name os'
    end
  end.

(** * Sample heaps *)

Module Sample.

(** A plain object holding the given properties in the given order. *)
Definition plain (proto : option addr) (ext : bool) (kv : list (string * Value)) : Object :=
  mkObject "Object" proto ext (list_to_map kv) (kv.*1) None None.

(** A weak map object: [self] is a [*weakMapObject] around the map [m]. *)
Definition weakMapObject (m : wmid) : Object :=
  mkObject "WeakMap" None true ∅ [] None (Some m).

Definition heapOf (os : list (addr * Object)) (ps : list (ploc * valueProperty)) : Heap :=
  mkHeap (list_to_map os) (list_to_map ps) ∅ ∅.

End Sample.

Module WeakSample.

(** Object 1 is a weak map object around map 1; object 2 is a plain key
    object that no weak collection has seen yet. *)
Definition h : Heap :=
  mkHeap (<[1%positive := Sample.weakMapObject 1]>
            (<[2%positive := Sample.plain None true []]> ∅))
         ∅ ∅ (<[1%positive := ∅]> ∅).

Definition callWith (key : Value) : FunctionCall :=
  mkCall (Some (ObjectPtr (Some 1%positive))) [key; Some (valueInt 42)].

End WeakSample.

Module ChainSample.

(** Three extensible objects A = 1, B = 2, C = 3 with A → B → C: the
    prototype of A is B, that of B is C, and C has none. *)
Definition objA : Object := Sample.plain (Some 2%positive) true [].
Definition objB : Object := Sample.plain (Some 3%positive) true [].
Definition objC : Object := Sample.plain None true [].
Definition h : Heap :=
  Sample.heapOf [(1%positive, objA); (2%positive, objB); (3%positive, objC)] [].

End ChainSample.

Module FrozenSample.

(** Object 1 holds ["x"] as a frozen data property with value 7. *)
Definition frozen : valueProperty :=
  mkProp (Some (valueInt 7)) false false true false None None.
Definition obj : Object :=
  Sample.plain None true [("x", Some (valuePropertyPtr 1))].
Definition h : Heap := Sample.heapOf [(1%positive, obj)] [(1%positive, frozen)].

(** Sameness as equality of the values, for the sample. *)
Definition SameAs (v : val) (w : Value) : bool := bool_decide (Some v = w).
Definition noAccessor (_ : Heap) (_ : addr) (_ : Value) : option (option addr) := None.

Definition valueOnly (n : Z) : PropertyDescriptor :=
  mkDescr (Some (valueInt n)) FLAG_NOT_SET FLAG_NOT_SET FLAG_NOT_SET None None.

End FrozenSample.

Module ProtoSample.

(** Object 1 has the plain object 2 as its prototype. *)
Definition h : Heap :=
  Sample.heapOf [(1%positive, Sample.plain (Some 2%positive) true []);
                 (2%positive, Sample.plain None true [])] [].

End ProtoSample.

Module InheritSample.

(** Object 2 holds ["ro"] as a non-writable data property (record 1), ["rw"]
    as a plain value, and ["acc"] as an accessor (record 2) whose setter is
    the function object 3.  Object 1 inherits from object 2 and has no
    property of its own; [sealed] says whether it is non-extensible. *)
Definition readOnly : valueProperty :=
  mkProp (Some (valueInt 1)) false true true false None None.
Definition withSetterOnly : valueProperty :=
  mkProp None false true true true None (Some 3%positive).
Definition parent : Object :=
  Sample.plain None true
    [("ro", Some (valuePropertyPtr 1)); ("rw", Some (valueInt 2));
     ("acc", Some (valuePropertyPtr 2))].
Definition child (sealed : bool) : Object :=
  Sample.plain (Some 2%positive) (negb sealed) [].
Definition h (sealed : bool) : Heap :=
  Sample.heapOf [(1%positive, child sealed); (2%positive, parent);
                 (3%positive, Sample.plain None true [])]
                [(1%positive, readOnly); (2%positive, withSetterOnly)].

End InheritSample.

Module GetterSample.

(** Object 1 holds ["g"] as record 1: an accessor with the getter function
    object 2 and no setter, still marked writable, as [_defineOwnProperty]
    leaves a writable data property that is given a getter. *)
Definition writableGetter : valueProperty :=
  mkProp None true true true true (Some 2%positive) None.
Definition h : Heap :=
  Sample.heapOf [(1%positive, Sample.plain None true [("g", Some (valuePropertyPtr 1))]);
                 (2%positive, Sample.plain None true [])]
                [(1%positive, writableGetter)].

End GetterSample.

Module EnumSample.

(** Object 1 holds [a], [b] (not enumerable, record 1) and [c]; its
    prototype, object 2, holds [c] and [d]. *)
Definition notEnumerable : valueProperty :=
  mkProp (Some (valueInt 2)) true true false false None None.
Definition child : Object :=
  Sample.plain (Some 2%positive) true
    [("a", Some (valueInt 1)); ("b", Some (valuePropertyPtr 1)); ("c", Some (valueInt 3))].
Definition parent : Object :=
  Sample.plain None true [("c", Some (valueInt 30)); ("d", Some (valueInt 40))].
Definition h : Heap :=
  Sample.heapOf [(1%positive, child); (2%positive, parent)] [(1%positive, notEnumerable)].

End EnumSample.

Module SnapshotSample.

(** The sample heap after the assignment that creates the own property [z]
    on object 1. *)
Definition child' : Object :=
  withValues EnumSample.child
    (<["z" := Some (valueInt 9)]> (values EnumSample.child))
    (propNames EnumSample.child ++ ["z"]).
Definition h' : Heap :=
  createOwn EnumSample.h 1 EnumSample.child "z" (Some (valueInt 9)).

End SnapshotSample.

Module RegistrySample.

(** The key object 2 owns registry 1, which lists the weak map 1; the map
    holds 42 under the registry's id.  Object 1 is the weak map object, and
    object 3 is a key that no weak collection has seen. *)
Definition key : Object :=
  withWeakColls (Sample.plain None true []) (Some 1%positive).
Definition h : Heap :=
  mkHeap (<[1%positive := Sample.weakMapObject 1]>
            (<[2%positive := key]> (<[3%positive := Sample.plain None true []]> ∅)))
         ∅
         (<[1%positive := [1%positive]]> ∅)
         (<[1%positive := <[1%positive := Some (valueInt 42)]> ∅]> ∅).

End RegistrySample.

(** * Properties *)

(** ** General facts *)

Lemma bind_Ret {A B : Type} (m : result A) (k : A → result B) (b : B) :
  m ≫= k = Ret b → ∃ a, m = Ret a ∧ k a = Ret b.
Proof. destruct m; simpl; intros; [eauto | discriminate ..]. Qed.

Lemma ofOption_Ret {A : Type} (o : option A) (a : A) : ofOption o = Ret a → o = Some a.
Proof. destruct o; simpl; congruence. Qed.

Ltac inv_bind H :=
  let x := fresh "x" in
  let Hx := fresh "Hx" in
  apply bind_Ret in H as (x & Hx & H);
  try (apply ofOption_Ret in Hx).

Lemma valueAt_insert_eq o name v vs ns :
  vs = <[name := v]> (values o) → valueAt (withValues o vs ns) name = v.
Proof. intros ->. unfold valueAt. simpl. by rewrite lookup_insert_eq. Qed.

(** More fuel never changes a result of [getPropStr]. *)
Lemma getPropStr_mono fuel fuel' h a name v :
  getPropStr fuel h a name = Ret v → fuel ≤ fuel' → getPropStr fuel' h a name = Ret v.
Proof.
  revert fuel' a. induction fuel as [|n IH]; intros fuel' a Hget Hle; [discriminate|].
  destruct fuel' as [|m]; [lia|].
  simpl in *. destruct (objs h !! a) as [o|]; simpl in *; [|discriminate].
  destruct (getOwnPropStr o name); [done|].
  destruct (prototype o); [|done].
  apply IH; [done | lia].
Qed.

(** ** The [__proto__] pseudo-key *)

(** C10: for an object whose [values] hold nothing under ["__proto__"],
    [getOwnPropStr] answers with the prototype pointer wrapped as an object
    value, which is not the absent (nil) value, while [hasOwnPropertyStr]
    answers [false]. *)
Theorem getOwnPropStr_proto_not_own (o : Object) :
  valueAt o __proto__ = None →
  getOwnPropStr o __proto__ = Some (ObjectPtr (prototype o)) ∧
  getOwnPropStr o __proto__ ≠ None ∧
  hasOwnPropertyStr o __proto__ = false.
Proof.
  intros Hnone. unfold getOwnPropStr, hasOwnPropertyStr. rewrite Hnone. simpl.
  repeat split; congruence.
Qed.

Lemma getOwnPropStr_proto_not_own_witness :
  let o := Sample.plain (Some 2%positive) true [("x", Some (valueInt 1))] in
  getOwnPropStr o __proto__ = Some (ObjectPtr (Some 2%positive)) ∧
  getOwnPropStr o __proto__ ≠ None ∧
  hasOwnPropertyStr o __proto__ = false.
Proof.
  exact (getOwnPropStr_proto_not_own
           (Sample.plain (Some 2%positive) true [("x", Some (valueInt 1))]) eq_refl).
Defined.

(** ** The weak-reference registry *)

Lemma registered_elem_of c colls : registered c colls = true ↔ c ∈ colls.
Proof.
  induction colls as [|ec colls IH]; simpl.
  - split; [discriminate | by intros ?%elem_of_nil].
  - destruct (decide (ec = c)) as [->|Hne].
    + split; [intros _; left | done].
    + rewrite IH. split; [by right | intros [?|?]%elem_of_cons; congruence].
Qed.

Lemma weakCollections_add_elem_of colls c : c ∈ weakCollections_add colls c.
Proof.
  unfold weakCollections_add. destruct (registered c colls) eqn:E.
  - by apply registered_elem_of.
  - set_solver.
Qed.

Lemma weakCollections_add_NoDup colls c : NoDup colls → NoDup (weakCollections_add colls c).
Proof.
  intros Hnd. unfold weakCollections_add. destruct (registered c colls) eqn:E; [done|].
  apply NoDup_app. repeat split; [done | | apply NoDup_singleton].
  intros x Hx ->%list_elem_of_singleton.
  apply registered_elem_of in Hx. congruence.
Qed.

(** C9: adding a collection that the registry already lists leaves the list
    as it is, adding twice is adding once, and a list without duplicates
    stays without duplicates. *)
Theorem weakCollections_add_idempotent (colls : list wmid) (c : wmid) :
  (c ∈ colls → weakCollections_add colls c = colls) ∧
  weakCollections_add (weakCollections_add colls c) c = weakCollections_add colls c ∧
  (NoDup colls → NoDup (weakCollections_add colls c)).
Proof.
  assert (Hin : ∀ l, c ∈ l → weakCollections_add l c = l).
  { intros l Hl. unfold weakCollections_add.
    by apply registered_elem_of in Hl as ->. }
  split; [apply Hin|]. split.
  - apply Hin, weakCollections_add_elem_of.
  - apply weakCollections_add_NoDup.
Qed.

Lemma weakCollections_add_idempotent_witness :
  weakCollections_add [1; 2; 3]%positive 2%positive = [1; 2; 3]%positive ∧
  NoDup (weakCollections_add [1; 2; 3]%positive 4%positive).
Proof.
  split.
  - destruct (weakCollections_add_idempotent [1; 2; 3]%positive 2%positive) as (Hin & _ & _).
    apply Hin. apply (bool_decide_unpack _). by vm_compute.
  - destruct (weakCollections_add_idempotent [1; 2; 3]%positive 4%positive) as (_ & _ & Hnd).
    apply Hnd. apply (bool_decide_unpack _). by vm_compute.
Defined.

Lemma swapRemove_perm c visited rest :
  c ∈ rest → ∃ rest', rest ≡ₚ c :: rest' ∧ swapRemove c visited rest ≡ₚ visited ++ rest'.
Proof.
  revert visited. induction rest as [|coll rest IH]; intros visited Hin.
  - by apply elem_of_nil in Hin.
  - simpl. destruct (decide (coll = c)) as [->|Hne].
    + exists rest. split; [done|].
      destruct (reverse rest) as [|lst front] eqn:E.
      * apply (f_equal reverse) in E. rewrite reverse_involutive in E. subst rest.
        by rewrite app_nil_r.
      * apply (f_equal reverse) in E. rewrite reverse_involutive in E. subst rest.
        rewrite reverse_cons. apply Permutation_app_head.
        by rewrite Permutation_app_comm.
    + apply elem_of_cons in Hin as [?|Hin]; [congruence|].
      destruct (IH (visited ++ [coll]) Hin) as (rest' & Hp & Hs).
      exists (coll :: rest'). split.
      * rewrite Hp. apply Permutation_swap.
      * rewrite Hs. rewrite <- app_assoc. done.
Qed.

Lemma swapRemove_absent c visited rest : c ∉ rest → swapRemove c visited rest = visited ++ rest.
Proof.
  revert visited. induction rest as [|coll rest IH]; intros visited Hin; simpl.
  - by rewrite app_nil_r.
  - destruct (decide (coll = c)) as [->|Hne]; [set_solver|].
    rewrite IH; [|set_solver]. by rewrite <- app_assoc.
Qed.

Lemma weakCollections_remove_NoDup cap colls c :
  NoDup colls → NoDup (weakCollections_remove cap colls c).
Proof.
  intros Hnd. unfold weakCollections_remove.
  destruct (_ && _).
  - by apply NoDup_filter.
  - destruct (decide (c ∈ colls)) as [Hin|Hout].
    + destruct (swapRemove_perm c [] colls Hin) as (rest' & Hp & Hs).
      rewrite Hs. simpl. rewrite Hp in Hnd. by apply NoDup_cons in Hnd as [_ ?].
    + by rewrite swapRemove_absent.
Qed.

(** From the empty registry that [getWeakCollRefs] allocates, no sequence of
    additions and removals produces a duplicate. *)
Lemma registry_NoDup (ops : list registryOp) : NoDup (foldl applyOp [] ops).
Proof.
  assert (H : ∀ colls, NoDup colls → NoDup (foldl applyOp colls ops)).
  { induction ops as [|op ops IH]; intros colls Hnd; simpl; [done|].
    apply IH. destruct op; simpl.
    - by apply weakCollections_add_NoDup.
    - by apply weakCollections_remove_NoDup. }
  apply H, NoDup_nil_2.
Qed.

(** ** Weak maps *)

(** C7: [set] on a weak map takes the registry of the key object (allocating
    a fresh one when the object has none), stores the value under the
    registry's id, and lists the map in the registry; [get] with the same key
    then returns the value. *)
Theorem weakMap_set_then_get (h : Heap) (m : wmid) (k : addr) (v : Value)
    (o : Object) (data : gmap regid Value) :
  objs h !! k = Some o →
  wmaps h !! m = Some data →
  (∀ r, weakColls o = Some r → is_Some (regs h !! r)) →
  ∃ h' r o' colls',
    weakMap_set h m k v = Ret h' ∧
    objs h' !! k = Some o' ∧ weakColls o' = Some r ∧
    (∀ r0, weakColls o = Some r0 → r = r0) ∧
    (weakColls o = None → regs h !! r = None) ∧
    wmaps h' !! m = Some (<[r := v]> data) ∧
    regs h' !! r = Some colls' ∧ m ∈ colls' ∧
    weakMap_get h' m k = Ret v.
Proof.
  intros Ho Hm Hreg. unfold weakMap_set, getWeakCollRefs. rewrite Ho. simpl.
  destruct (weakColls o) as [r|] eqn:Hw; simpl.
  - destruct (Hreg r eq_refl) as [colls Hcolls].
    rewrite Hm. simpl. rewrite Hcolls. simpl.
    exists (setReg (setData h m (<[r:=v]> data)) r (weakCollections_add colls m)),
           r, o, (weakCollections_add colls m).
    repeat split; simpl; try done.
    + congruence.
    + by rewrite lookup_insert_eq.
    + by rewrite lookup_insert_eq.
    + apply weakCollections_add_elem_of.
    + unfold weakMap_get. simpl. rewrite Ho. simpl. rewrite Hw.
      rewrite lookup_insert_eq. simpl. by rewrite lookup_insert_eq.
  - set (r := fresh (dom (regs h))).
    assert (Hfresh : regs h !! r = None).
    { apply not_elem_of_dom, is_fresh. }
    rewrite Hm. simpl. rewrite lookup_insert_eq. simpl.
    eexists _, r, (withWeakColls o (Some r)), (weakCollections_add [] m).
    repeat split; simpl; try done.
    + by rewrite lookup_insert_eq.
    + by rewrite lookup_insert_eq.
    + by rewrite lookup_insert_eq.
    + apply weakCollections_add_elem_of.
    + unfold weakMap_get. simpl. rewrite lookup_insert_eq. simpl.
      rewrite lookup_insert_eq. simpl. by rewrite lookup_insert_eq.
Qed.

Lemma weakMap_set_then_get_witness :
  ∃ h' r o' colls',
    weakMap_set WeakSample.h 1 2 (Some (valueInt 42)) = Ret h' ∧
    objs h' !! 2%positive = Some o' ∧ weakColls o' = Some r ∧
    (∀ r0, weakColls (Sample.plain None true []) = Some r0 → r = r0) ∧
    (weakColls (Sample.plain None true []) = None → regs WeakSample.h !! r = None) ∧
    wmaps h' !! 1%positive = Some (<[r := Some (valueInt 42)]> ∅) ∧
    regs h' !! r = Some colls' ∧ 1%positive ∈ colls' ∧
    weakMap_get h' 1 2 = Ret (Some (valueInt 42)).
Proof.
  apply (weakMap_set_then_get WeakSample.h 1 2 (Some (valueInt 42))
           (Sample.plain None true []) ∅).
  - reflexivity.
  - reflexivity.
  - intros r Hr. discriminate Hr.
Defined.

(** C8, as stated, fails: [WeakMap.prototype.has] given a number as key
    returns [false] and raises nothing. *)
Lemma weakMapProto_has_number_key_returns :
  isObjectPtr (Argument (WeakSample.callWith (Some (valueInt 7))) 0) = None ∧
  weakMapProto_has WeakSample.h (WeakSample.callWith (Some (valueInt 7))) = Ret valueFalse.
Proof. split; reflexivity. Qed.

(** C8, amended: on a weak map receiver and with a key that is not an object,
    [WeakMap.prototype.set] raises a type error with the heap untouched, so
    no entry is stored; [get], [has] and [delete] raise nothing and return
    undefined, false and false. *)
Theorem weakMapProto_non_object_key (h : Heap) (call : FunctionCall) (m : wmid) :
  weakMapReceiver h call = Ret m →
  isObjectPtr (Argument call 0) = None →
  weakMapProto_set h call = Raise h ErrNotObject ∧
  weakMapProto_get h call = Ret _undefined ∧
  weakMapProto_has h call = Ret valueFalse ∧
  ∀ cap, weakMapProto_delete cap h call = Ret (h, valueFalse).
Proof.
  intros Hrecv Hkey.
  unfold weakMapProto_set, weakMapProto_get, weakMapProto_has, weakMapProto_delete.
  rewrite Hrecv, Hkey. simpl.
  repeat split.
  destruct (Argument call 0) as [[]|]; simpl in *; try done.
Qed.

Lemma weakMapProto_non_object_key_witness :
  weakMapProto_set WeakSample.h (WeakSample.callWith (Some (valueString "key")))
    = Raise WeakSample.h ErrNotObject ∧
  weakMapProto_get WeakSample.h (WeakSample.callWith (Some (valueString "key")))
    = Ret _undefined ∧
  weakMapProto_has WeakSample.h (WeakSample.callWith (Some (valueString "key")))
    = Ret valueFalse ∧
  ∀ cap, weakMapProto_delete cap WeakSample.h (WeakSample.callWith (Some (valueString "key")))
    = Ret (WeakSample.h, valueFalse).
Proof.
  apply (weakMapProto_non_object_key WeakSample.h
           (WeakSample.callWith (Some (valueString "key"))) 1%positive).
  - reflexivity.
  - reflexivity.
Defined.

(** ** The prototype link *)

Lemma Object_SameAs_refl p : Object_SameAs p p = true.
Proof. unfold Object_SameAs. by rewrite bool_decide_eq_true_2. Qed.

Lemma Object_SameAs_ne p q : p ≠ q → Object_SameAs p q = false.
Proof. intros Hne. unfold Object_SameAs. by rewrite bool_decide_eq_false_2. Qed.

Lemma protoChainHas_onChain h target p :
  onChain h target p →
  ∃ n, ∀ fuel, n ≤ fuel → protoChainHas fuel h p target = Ret true.
Proof.
  induction 1 as [|a o Ho _ [n IH]].
  - exists 0. intros fuel _. destruct fuel; simpl; by rewrite Object_SameAs_refl.
  - exists (S n). intros fuel Hle. destruct fuel as [|fuel]; [lia|].
    simpl. destruct (Object_SameAs (Some a) (Some target)); [done|].
    rewrite Ho. simpl. apply IH. lia.
Qed.

(** C4: [setProto] returns without an error and without a change when the
    new prototype is the current one; otherwise it returns the
    not-extensible error for an object that is not extensible, and, for an
    extensible one, the cyclic-prototype error when the object is the new
    prototype or one of its ancestors (so also for its own address); whenever
    an error is returned the heap is the one it started from. *)
Theorem setProto_rejections (h : Heap) (a : addr) (o : Object) (p : option addr) :
  objs h !! a = Some o →
  (prototype o = p → ∀ fuel, setProto fuel h a p = Ret (h, None)) ∧
  (prototype o ≠ p → extensible o = false →
     ∀ fuel, setProto fuel h a p = Ret (h, Some ErrNotExtensible)) ∧
  (prototype o ≠ p → extensible o = true → onChain h a p →
     ∃ n, ∀ fuel, n ≤ fuel → setProto fuel h a p = Ret (h, Some ErrCyclicProto)) ∧
  (prototype o ≠ Some a → extensible o = true →
     ∀ fuel, setProto fuel h a (Some a) = Ret (h, Some ErrCyclicProto)) ∧
  (∀ fuel h' e, setProto fuel h a p = Ret (h', Some e) → h' = h).
Proof.
  intros Ho. unfold setProto. rewrite Ho. simpl. repeat split.
  - intros -> fuel. by rewrite Object_SameAs_refl.
  - intros Hne Hext fuel. rewrite Object_SameAs_ne by done. by rewrite Hext.
  - intros Hne Hext Hchain.
    destruct (protoChainHas_onChain h a p Hchain) as [n Hn].
    exists n. intros fuel Hle. rewrite Object_SameAs_ne by done. rewrite Hext. simpl.
    by rewrite Hn.
  - intros Hne Hext fuel. rewrite Object_SameAs_ne by done. rewrite Hext. simpl.
    destruct fuel; simpl; by rewrite Object_SameAs_refl.
  - intros fuel h' e. destruct (Object_SameAs (prototype o) p); [congruence|].
    destruct (extensible o); simpl; [|congruence].
    destruct (protoChainHas fuel h p a) as [[]| |]; simpl; congruence.
Qed.

(** Closing the chain A → B → C by giving C the prototype A is refused. *)
Lemma setProto_rejections_witness :
  ∃ n, ∀ fuel, n ≤ fuel →
    setProto fuel ChainSample.h 3 (Some 1%positive)
    = Ret (ChainSample.h, Some ErrCyclicProto).
Proof.
  destruct (setProto_rejections ChainSample.h 3 ChainSample.objC (Some 1%positive) eq_refl)
    as (_ & _ & Hcyc & _).
  apply Hcyc.
  - discriminate.
  - reflexivity.
  - apply (onChain_up ChainSample.h 3 1 ChainSample.objA); [reflexivity|].
    apply (onChain_up ChainSample.h 3 2 ChainSample.objB); [reflexivity|].
    apply onChain_here.
Defined.

(** ** Redefining a frozen data property *)

Section DefineOwnPropertyFacts.

Variable SameAs : val → Value → bool.
Variable propGetter : Heap → addr → Value → option (option addr).
Variable propSetter : Heap → addr → Value → option (option addr).

Let define := defineOwnProperty SameAs propGetter propSetter.

(** A non-configurable, non-writable data property refuses a descriptor
    that asks for [writable=true] or brings a value that is not the same. *)
Lemma rejects_frozen_data (p : valueProperty) (d : PropertyDescriptor) :
  configurable p = false → writable p = false → accessor p = false →
  (∃ dv, dValue d = Some dv ∧ SameAs dv (value p) = false) ∨ dWritable d = FLAG_TRUE →
  rejects SameAs p d = true.
Proof.
  intros Hc Hw Ha Hd. unfold rejects. rewrite Hc, Hw, Ha. simpl.
  apply orb_true_iff. right.
  destruct (bool_decide (asObject (dGetter d) ≠ None) ||
            bool_decide (asObject (dSetter d) ≠ None)); [done|].
  destruct Hd as [(dv & -> & ->)| ->]; simpl.
  - apply orb_true_r.
  - done.
Qed.

(** The same property accepts a descriptor whose value is the same and
    whose flags, where given, are the ones it has. *)
Lemma rejects_same_data (p : valueProperty) (d : PropertyDescriptor) (dv : val) :
  configurable p = false → writable p = false → accessor p = false →
  dValue d = Some dv → SameAs dv (value p) = true →
  dWritable d ≠ FLAG_TRUE → dConfigurable d ≠ FLAG_TRUE →
  (dEnumerable d = FLAG_NOT_SET ∨ Flag_Bool (dEnumerable d) = enumerable p) →
  dGetter d = None → dSetter d = None →
  rejects SameAs p d = false.
Proof.
  intros Hc Hw Ha Hv Hsame Hdw Hdc Hde Hg Hs.
  unfold rejects. rewrite Hc, Hw, Ha, Hv, Hsame, Hg, Hs. simpl.
  rewrite (bool_decide_eq_false_2 (dConfigurable d = FLAG_TRUE)) by done.
  rewrite (bool_decide_eq_false_2 (dWritable d = FLAG_TRUE)) by done.
  simpl. rewrite orb_false_r.
  destruct Hde as [-> | ->]; simpl; [done|].
  rewrite Bool.eqb_reflx. simpl. apply andb_false_r.
Qed.

(** C3: on an own data property that is neither configurable nor writable,
    [defineOwnProperty] succeeds for a descriptor that brings a value the
    same as the stored one (under [SameAs]) and no change of an attribute,
    leaving the flags as they were; it fails, raising the redefinition
    error when [throw] is set and returning [false] with the heap
    untouched otherwise, for every descriptor that brings a value that is
    not the same or asks for [writable=true]. *)
Theorem defineOwnProperty_frozen_data (h : Heap) (a : addr) (o : Object)
    (name : string) (l : ploc) (p : valueProperty) (d : PropertyDescriptor)
    (throw : bool) :
  objs h !! a = Some o →
  values o !! name = Some (Some (valuePropertyPtr l)) →
  props h !! l = Some p →
  configurable p = false → writable p = false → accessor p = false →
  (∀ dv, dValue d = Some dv → SameAs dv (value p) = true →
     dWritable d ≠ FLAG_TRUE → dConfigurable d ≠ FLAG_TRUE →
     (dEnumerable d = FLAG_NOT_SET ∨ Flag_Bool (dEnumerable d) = enumerable p) →
     dGetter d = None → dSetter d = None →
     define h a name d throw
     = Ret (setObj (setProp h l (mkProp (Some dv) false false (enumerable p) false None None))
              a (withValues o (<[name := Some (valuePropertyPtr l)]> (values o))
                   (propNames o)),
            true)) ∧
  ((∃ dv, dValue d = Some dv ∧ SameAs dv (value p) = false) ∨ dWritable d = FLAG_TRUE →
     define h a name d throw
     = if throw then Raise h ErrRedefine else Ret (h, false)).
Proof.
  intros Ho Hname Hl Hc Hw Ha.
  assert (Hat : valueAt o name = Some (valuePropertyPtr l)).
  { unfold valueAt. by rewrite Hname. }
  split.
  - intros dv Hv Hsame Hdw Hdc Hde Hg Hs.
    unfold define, defineOwnProperty, _defineOwnProperty. rewrite Ho. simpl.
    rewrite Hat, Hl. simpl.
    rewrite (rejects_same_data p d dv) by done.
    unfold applyDescr.
    rewrite (bool_decide_eq_false_2 (dWritable d = FLAG_TRUE)) by done. simpl.
    rewrite Hg, Hs. simpl.
    repeat f_equal.
    unfold withDefault, withData, withFlags. rewrite Hv, Hc, Hw. simpl.
    f_equal.
    + destruct (dWritable d); simpl; done.
    + destruct (dConfigurable d); simpl; done.
    + destruct Hde as [-> | <-]; simpl; [done|].
      by destruct (dEnumerable d).
  - intros Hd.
    unfold define, defineOwnProperty, _defineOwnProperty. rewrite Ho. simpl.
    rewrite Hat, Hl. simpl.
    rewrite (rejects_frozen_data p d) by done.
    by destruct throw.
Qed.

End DefineOwnPropertyFacts.

Lemma defineOwnProperty_frozen_data_witness :
  (∃ h', defineOwnProperty FrozenSample.SameAs FrozenSample.noAccessor FrozenSample.noAccessor
           FrozenSample.h 1 "x" (FrozenSample.valueOnly 7) true = Ret (h', true)) ∧
  defineOwnProperty FrozenSample.SameAs FrozenSample.noAccessor FrozenSample.noAccessor
    FrozenSample.h 1 "x" (FrozenSample.valueOnly 8) true
  = Raise FrozenSample.h ErrRedefine.
Proof.
  split.
  - destruct (defineOwnProperty_frozen_data FrozenSample.SameAs FrozenSample.noAccessor
                FrozenSample.noAccessor FrozenSample.h 1 FrozenSample.obj "x" 1
                FrozenSample.frozen (FrozenSample.valueOnly 7) true
                eq_refl eq_refl eq_refl eq_refl eq_refl eq_refl) as [Hok _].
    eexists. apply (Hok (valueInt 7)); try reflexivity; try discriminate.
    left. reflexivity.
  - destruct (defineOwnProperty_frozen_data FrozenSample.SameAs FrozenSample.noAccessor
                FrozenSample.noAccessor FrozenSample.h 1 FrozenSample.obj "x" 1
                FrozenSample.frozen (FrozenSample.valueOnly 8) true
                eq_refl eq_refl eq_refl eq_refl eq_refl eq_refl) as [_ Hfail].
    apply Hfail. left. exists (valueInt 8). split; reflexivity.
Defined.

(** ** Assignment *)

Lemma getPropStr_setProp fuel h l p a name :
  getPropStr fuel (setProp h l p) a name = getPropStr fuel h a name.
Proof.
  revert a. induction fuel as [|n IH]; intros a; simpl; [done|].
  destruct (objs h !! a) as [o|]; simpl; [|done].
  destruct (getOwnPropStr o name); [done|].
  destruct (prototype o); [apply IH | done].
Qed.

Lemma getOwnPropStr_stored o name v :
  valueAt o name = Some v → getOwnPropStr o name = Some v.
Proof. unfold getOwnPropStr. by intros ->. Qed.

(** Reading a name whose own entry holds the plain value [v]. *)
Lemma getStr_own_plain fuel h a o name v :
  objs h !! a = Some o → valueAt o name = Some v →
  (∀ l, v ≠ valuePropertyPtr l) →
  getStr (S fuel) h a name = Ret (GetVal (Some v)).
Proof.
  intros Ho Hat Hv. unfold getStr. simpl. rewrite Ho. simpl.
  rewrite (getOwnPropStr_stored o name v Hat). simpl.
  destruct v; try done. by destruct (Hv p).
Qed.

(** Reading a name that resolves to the property record [l]. *)
Lemma getStr_record fuel h a name l p :
  getPropStr fuel h a name = Ret (Some (valuePropertyPtr l)) →
  props h !! l = Some p →
  getStr fuel h a name = Ret (valueProperty_get p a).
Proof. intros Hget Hl. unfold getStr. rewrite Hget. simpl. by rewrite Hl. Qed.

(** C1, as stated, fails: assigning the number 5 to ["__proto__"] returns
    without a rejection and without a change, and reading the key afterwards
    gives the prototype object, not 5. *)
Lemma putStr_proto_number_then_getStr :
  putStr 5 ProtoSample.h 1 __proto__ (Some (valueInt 5)) false
    = Ret (PutDone ProtoSample.h) ∧
  getStr 5 ProtoSample.h 1 __proto__ = Ret (GetVal (Some (ObjectPtr (Some 2%positive)))) ∧
  getStr 5 ProtoSample.h 1 __proto__ ≠ Ret (GetVal (Some (valueInt 5))).
Proof. repeat split. discriminate. Qed.

(** C1, amended: when [putStr] with [throw=false] returns after storing the
    value [v] (it neither rejects nor hands the value to a setter), reading
    the key gives [v], provided that [v] is a language value, that a
    ["__proto__"] without an own entry is given an object, and that the
    record the key resolves to is not a getter still marked writable; when
    the object has no own entry and inherits a property that takes no
    assignment, [putStr] rejects and the heap, and with it every read, stays
    as it was. *)
Theorem putStr_then_getStr (fuel : nat) (h : Heap) (a : addr) (o : Object)
    (k : string) (v : val) :
  objs h !! a = Some o →
  (∀ h',
     (∀ l, v ≠ valuePropertyPtr l) →
     (k = __proto__ → values o !! k = None → ∃ p, v = ObjectPtr p) →
     (∀ l p, getPropStr (S fuel) h a k = Ret (Some (valuePropertyPtr l)) →
             props h !! l = Some p → writable p = true → getterFunc p = None) →
     putStr fuel h a k (Some v) false = Ret (PutDone h') →
     ∀ fuel', fuel < fuel' → getStr fuel' h' a k = Ret (GetVal (Some v))) ∧
  (∀ l p,
     values o !! k = None → k ≠ __proto__ →
     inheritedProp fuel h o k = Ret (Some (valuePropertyPtr l)) →
     props h !! l = Some p → isWritable p = false →
     putStr fuel h a k (Some v) false = Ret PutRejected).
Proof.
  intros Ho. split.
  - intros h' Hv Hproto Hgetter Hput fuel' Hlt.
    destruct fuel' as [|n]; [lia|]. assert (Hn : fuel ≤ n) by lia. clear Hlt.
    unfold putStr in Hput. rewrite Ho in Hput. simpl in Hput.
    destruct (values o !! k) as [[[| | | | | |l]|]|] eqn:Hk;
      try (injection Hput as <-;
           eapply (getStr_own_plain n _ a _ k v);
           [simpl; by rewrite lookup_insert_eq | by apply valueAt_insert_eq | done]).
    + (* own property record *)
      inv_bind Hput. rename x into prop.
      destruct (isWritable prop) eqn:Hwr; simpl in Hput; [|discriminate].
      unfold valueProperty_set in Hput.
      destruct (setterFunc prop) eqn:Hset; [discriminate|].
      injection Hput as <-.
      assert (Hat : valueAt o k = Some (valuePropertyPtr l)).
      { unfold valueAt. by rewrite Hk. }
      assert (Hres : getPropStr (S fuel) h a k = Ret (Some (valuePropertyPtr l))).
      { simpl. rewrite Ho. simpl. by rewrite (getOwnPropStr_stored _ _ _ Hat). }
      assert (Hw : writable prop = true).
      { unfold isWritable in Hwr. rewrite Hset in Hwr.
        rewrite bool_decide_eq_false_2 in Hwr by (intros ?; done).
        by rewrite orb_false_r in Hwr. }
      rewrite (getStr_record (S n) _ a k l (withValue prop (Some v))).
      * unfold valueProperty_get. simpl. by rewrite (Hgetter l prop Hres Hx Hw).
      * rewrite getPropStr_setProp. apply (getPropStr_mono (S fuel)); [done | lia].
      * simpl. by rewrite lookup_insert_eq.
    + (* no own entry *)
      destruct (String.eqb k __proto__) eqn:Hkp.
      * apply String.eqb_eq in Hkp.
        destruct (Hproto Hkp eq_refl) as [p ->].
        inv_bind Hput. destruct x as [h1 ex]. unfold setProto in Hx.
        rewrite Ho in Hx. simpl in Hx.
        assert (Hat : valueAt o k = None) by (unfold valueAt; by rewrite Hk).
        unfold Object_SameAs in Hx.
        destruct (decide (prototype o = p)) as [Heq|Hne];
          [rewrite bool_decide_eq_true_2 in Hx by done
          |rewrite bool_decide_eq_false_2 in Hx by done].
        -- injection Hx as <- <-. injection Hput as <-.
           unfold getStr. simpl. rewrite Ho. simpl.
           unfold getOwnPropStr. rewrite Hat, Hkp.
           rewrite (proj2 (String.eqb_eq _ _) eq_refl). simpl. by rewrite Heq.
        -- destruct (extensible o); simpl in Hx; [|injection Hx as <- <-; discriminate].
           inv_bind Hx. destruct x; injection Hx as <- <-; [discriminate|].
           injection Hput as <-.
           unfold getStr. simpl. rewrite lookup_insert_eq. simpl.
           unfold getOwnPropStr. unfold valueAt in *. simpl. rewrite Hk. simpl.
           by rewrite Hkp, (proj2 (String.eqb_eq _ _) eq_refl).
      * inv_bind Hput. rename x into pprop.
        assert (Hown : ∀ h0, objs h0 !! a = Some (withValues o (<[k:=Some v]> (values o))
                                                     (propNames o ++ [k])) →
                       getStr (S n) h0 a k = Ret (GetVal (Some v))).
        { intros h0 Hh0. apply (getStr_own_plain n h0 a _ k v Hh0); [|done].
          by apply valueAt_insert_eq. }
        assert (Hcreate : getStr (S n) (createOwn h a o k (Some v)) a k
                          = Ret (GetVal (Some v))).
        { apply Hown. simpl. by rewrite lookup_insert_eq. }
        destruct pprop as [[| | | | | |l]|];
          try (injection Hput as <-; exact Hcreate).
        -- inv_bind Hput. rename x into prop.
           destruct (isWritable prop) eqn:Hwr; simpl in Hput; [|discriminate].
           destruct (accessor prop); [|injection Hput as <-; exact Hcreate].
           unfold valueProperty_set in Hput.
           destruct (setterFunc prop) eqn:Hset; [discriminate|].
           injection Hput as <-.
           assert (Hat : valueAt o k = None) by (unfold valueAt; by rewrite Hk).
           unfold inheritedProp in Hx.
           destruct (prototype o) as [pa|] eqn:Hpa; [|discriminate].
           assert (Hres : ∀ m, fuel ≤ m →
                     getPropStr (S m) h a k = Ret (Some (valuePropertyPtr l))).
           { intros m Hm. simpl. rewrite Ho. simpl. unfold getOwnPropStr.
             rewrite Hat, Hkp, Hpa. by apply (getPropStr_mono fuel). }
           assert (Hw : writable prop = true).
           { unfold isWritable in Hwr. rewrite Hset in Hwr.
             rewrite bool_decide_eq_false_2 in Hwr by (intros ?; done).
             by rewrite orb_false_r in Hwr. }
           rewrite (getStr_record (S n) _ a k l (withValue prop (Some v))).
           ++ unfold valueProperty_get. simpl.
              by rewrite (Hgetter l prop (Hres fuel (le_n _)) Hx0 Hw).
           ++ rewrite getPropStr_setProp. by apply Hres.
           ++ simpl. by rewrite lookup_insert_eq.
        -- destruct (extensible o); simpl in Hput; [|discriminate].
           injection Hput as <-. exact Hcreate.
  - intros l p Hk Hkp Hinh Hl Hwr.
    unfold putStr. rewrite Ho. simpl. rewrite Hk.
    rewrite (proj2 (String.eqb_neq _ _) Hkp). rewrite Hinh. simpl.
    rewrite Hl. simpl. by rewrite Hwr.
Qed.

(** What the last proviso keeps out: a getter without a setter that is still
    marked writable takes the assignment into its value slot, and the read
    afterwards calls the getter. *)
Lemma putStr_writable_getter :
  putStr 5 GetterSample.h 1 "g" (Some (valueInt 5)) false
    = Ret (PutDone (setProp GetterSample.h 1
                      (withValue GetterSample.writableGetter (Some (valueInt 5))))) ∧
  getStr 5 (setProp GetterSample.h 1
              (withValue GetterSample.writableGetter (Some (valueInt 5)))) 1 "g"
    = Ret (GetCall 2 1).
Proof. split; reflexivity. Qed.

Lemma putStr_then_getStr_witness :
  getStr 6 (createOwn (InheritSample.h false) 1 (InheritSample.child false)
              "x" (Some (valueInt 5))) 1 "x"
    = Ret (GetVal (Some (valueInt 5))) ∧
  putStr 5 (InheritSample.h false) 1 "ro" (Some (valueInt 5)) false = Ret PutRejected.
Proof.
  destruct (putStr_then_getStr 5 (InheritSample.h false) 1 (InheritSample.child false)
              "x" (valueInt 5) eq_refl) as [Hstored _].
  destruct (putStr_then_getStr 5 (InheritSample.h false) 1 (InheritSample.child false)
              "ro" (valueInt 5) eq_refl) as [_ Hrejected].
  split.
  - apply Hstored.
    + intros l. discriminate.
    + intros Hk. discriminate Hk.
    + intros l p Hres. vm_compute in Hres. discriminate Hres.
    + reflexivity.
    + lia.
  - apply (Hrejected 1%positive InheritSample.readOnly).
    + reflexivity.
    + intros Hk. discriminate Hk.
    + reflexivity.
    + reflexivity.
    + reflexivity.
Defined.

(** C2, as stated, fails: on a non-extensible object that inherits an
    accessor with a setter, [putStr] with [throw=true] raises nothing and
    rejects nothing; it hands the value to the inherited setter. *)
Lemma putStr_sealed_inherited_setter :
  extensible (InheritSample.child true) = false ∧
  values (InheritSample.child true) !! "acc" = None ∧
  putStr 5 (InheritSample.h true) 1 "acc" (Some (valueInt 5)) true
    = Ret (PutSetter 3 1 (Some (valueInt 5))) ∧
  putStr 5 (InheritSample.h true) 1 "acc" (Some (valueInt 5)) true
    ≠ Raise (InheritSample.h true) ErrPlain.
Proof. repeat split. discriminate. Qed.

(** C2, amended: on a non-extensible object without an own entry for a key
    other than ["__proto__"], [putStr] creates no own property and rejects
    (raising the type error when [throw] is set, with the heap untouched)
    when the prototype chain has no property of that name or has one that
    takes no assignment; when the chain has an accessor with a setter,
    [putStr] does not reject: it hands the value to that setter with the
    object as receiver. *)
Theorem putStr_not_extensible (fuel : nat) (h : Heap) (a : addr) (o : Object)
    (k : string) (v : Value) (throw : bool) :
  objs h !! a = Some o →
  extensible o = false →
  values o !! k = None →
  k ≠ __proto__ →
  (inheritedProp fuel h o k = Ret None →
     putStr fuel h a k v throw = if throw then Raise h ErrPlain else Ret PutRejected) ∧
  (∀ l p, inheritedProp fuel h o k = Ret (Some (valuePropertyPtr l)) →
     props h !! l = Some p → isWritable p = false →
     putStr fuel h a k v throw = if throw then Raise h ErrPlain else Ret PutRejected) ∧
  (∀ l p f, inheritedProp fuel h o k = Ret (Some (valuePropertyPtr l)) →
     props h !! l = Some p → accessor p = true → setterFunc p = Some f →
     putStr fuel h a k v throw = Ret (PutSetter f a v)).
Proof.
  intros Ho Hext Hk Hkp.
  unfold putStr. rewrite Ho. simpl. rewrite Hk.
  rewrite (proj2 (String.eqb_neq _ _) Hkp).
  repeat split.
  - intros ->. simpl. rewrite Hext. simpl. by destruct throw.
  - intros l p -> Hl Hwr. simpl. rewrite Hl. simpl. rewrite Hwr. simpl.
    by destruct throw.
  - intros l p f -> Hl Hacc Hset. simpl. rewrite Hl. simpl.
    unfold isWritable, valueProperty_set. rewrite Hset, Hacc.
    rewrite bool_decide_eq_true_2 by done. by rewrite orb_true_r.
Qed.

Lemma putStr_not_extensible_witness :
  putStr 5 (InheritSample.h true) 1 "none" (Some (valueInt 5)) true
    = Raise (InheritSample.h true) ErrPlain ∧
  putStr 5 (InheritSample.h true) 1 "ro" (Some (valueInt 5)) false = Ret PutRejected ∧
  putStr 5 (InheritSample.h true) 1 "acc" (Some (valueInt 5)) true
    = Ret (PutSetter 3 1 (Some (valueInt 5))).
Proof.
  assert (Hne : ∀ k : string, String.eqb k __proto__ = false → k ≠ __proto__).
  { intros k Hk. by apply String.eqb_neq. }
  split; [|split].
  - destruct (putStr_not_extensible 5 (InheritSample.h true) 1 (InheritSample.child true)
                "none" (Some (valueInt 5)) true eq_refl eq_refl eq_refl (Hne "none" eq_refl))
      as (Hnone & _ & _).
    apply Hnone. reflexivity.
  - destruct (putStr_not_extensible 5 (InheritSample.h true) 1 (InheritSample.child true)
                "ro" (Some (valueInt 5)) false eq_refl eq_refl eq_refl (Hne "ro" eq_refl))
      as (_ & Hro & _).
    apply (Hro 1%positive InheritSample.readOnly); reflexivity.
  - destruct (putStr_not_extensible 5 (InheritSample.h true) 1 (InheritSample.child true)
                "acc" (Some (valueInt 5)) true eq_refl eq_refl eq_refl (Hne "acc" eq_refl))
      as (_ & _ & Hacc).
    apply (Hacc 2%positive InheritSample.withSetterOnly 3%positive); reflexivity.
Defined.

(** What the amended statement leaves open: when the chain holds the name as
    a writable data property, [putStr] never consults [extensible] and
    stores a new own property on the non-extensible object, with or without
    [throw]. *)
Lemma putStr_sealed_inherited_data (throw : bool) :
  extensible (InheritSample.child true) = false ∧
  putStr 5 (InheritSample.h true) 1 "rw" (Some (valueInt 5)) throw
    = Ret (PutDone (createOwn (InheritSample.h true) 1 (InheritSample.child true)
                      "rw" (Some (valueInt 5)))) ∧
  hasOwnPropertyStr
    (withValues (InheritSample.child true)
       (<["rw" := Some (valueInt 5)]> (values (InheritSample.child true)))
       (propNames (InheritSample.child true) ++ ["rw"])) "rw" = true.
Proof. by destruct throw. Qed.

(** ** Enumeration against a list specification *)

Lemma nextStored_None o rest idx :
  nextStored o rest idx = None → storedItems o rest = [].
Proof.
  revert idx. induction rest as [|name rest IH]; intros idx; simpl; [done|].
  unfold storedItems. simpl. destruct (valueAt o name); simpl; [done|].
  intros H. by apply IH in H.
Qed.

Lemma nextStored_Some o rest idx name v idx' :
  nextStored o rest idx = Some (name, v, idx') →
  ∃ k, idx' = idx + S k ∧
       storedItems o rest = mkItem name v _ENUM_UNKNOWN :: storedItems o (drop (S k) rest).
Proof.
  revert idx. induction rest as [|n rest IH]; intros idx; simpl; [done|].
  unfold storedItems. simpl. destruct (valueAt o n) eqn:Hn; simpl.
  - intros [= <- <- <-]. exists 0. split; [lia|]. by rewrite drop_0.
  - intros H. apply IH in H as (k & -> & Hrest). exists (S k). split; [lia|].
    exact Hrest.
Qed.

Lemma protoChain_None_inv h cs : protoChain h None cs → cs = [].
Proof. by inversion 1. Qed.

Lemma protoChain_Some_inv h p cs :
  protoChain h (Some p) cs →
  ∃ o cs', cs = o :: cs' ∧ objs h !! p = Some o ∧ protoChain h (prototype o) cs'.
Proof. inversion 1; subst. eauto. Qed.

(** One call of [objectPropIter.next] hands out the head of what remains. *)
Lemma objectPropIter_next_spec h cs :
  ∀ i o fuel,
    objs h !! iter_o i = Some o →
    protoChain h (prototype o) cs →
    length cs < fuel →
    match remaining i o cs with
    | [] => objectPropIter_next fuel h i = Ret (noItem, None)
    | item :: rest =>
      ∃ i' o' cs',
        objectPropIter_next fuel h i = Ret (item, Some i') ∧
        objs h !! iter_o i' = Some o' ∧
        protoChain h (prototype o') cs' ∧
        length cs' ≤ length cs ∧
        iter_recursive i' = iter_recursive i ∧
        remaining i' o' cs' = rest
    end.
Proof.
  induction cs as [|o1 cs1 IH]; intros i o fuel Ho Hchain Hfuel;
    (destruct fuel as [|n]; [simpl in Hfuel; lia|]);
    unfold remaining; simpl; rewrite Ho; simpl;
    destruct (nextStored o (drop (iter_idx i) (iter_propNames i)) (iter_idx i))
      as [[[name v] idx']|] eqn:Hnext.
  - apply nextStored_Some in Hnext as (k & -> & ->). simpl.
    exists (mkIter (iter_o i) (iter_propNames i) (iter_recursive i) (iter_idx i + S k)), o, [].
    repeat split; try done. unfold remaining. simpl. by rewrite drop_drop.
  - rewrite (nextStored_None _ _ _ Hnext). simpl.
    destruct (iter_recursive i); simpl; [|done].
    destruct (prototype o) as [p|]; [|done].
    by apply protoChain_Some_inv in Hchain as (? & ? & ? & _).
  - apply nextStored_Some in Hnext as (k & -> & ->). simpl.
    exists (mkIter (iter_o i) (iter_propNames i) (iter_recursive i) (iter_idx i + S k)),
           o, (o1 :: cs1).
    repeat split; try done. unfold remaining. simpl. by rewrite drop_drop.
  - rewrite (nextStored_None _ _ _ Hnext). simpl.
    destruct (iter_recursive i) eqn:Hrec; simpl; [|done].
    destruct (prototype o) as [p|].
    2: { by apply protoChain_None_inv in Hchain. }
    apply protoChain_Some_inv in Hchain as (o1' & cs1' & [= <- <-] & Hp & Hchain).
    unfold _enumerate. rewrite Hp. simpl.
    specialize (IH (mkIter p (propNames o1) true 0) o1 n Hp Hchain).
    unfold remaining in IH. simpl in IH. rewrite drop_0 in IH.
    unfold chainItems in *. simpl in *.
    destruct (storedItems o1 (propNames o1) ++ concat _) as [|item rest].
    + apply IH. simpl in Hfuel. lia.
    + destruct IH as (i' & o' & cs' & Hnext' & Ho' & Hchain' & Hlen & Hrec' & Hrem).
      { simpl in Hfuel. lia. }
      exists i', o', cs'. repeat split; try done. lia.
Qed.

Lemma isHidden_present h item : itemPresent h item → hidden h item = Ret (isHidden h item).
Proof. intros [b Hb]. unfold isHidden. by rewrite Hb. Qed.

Lemma propFilterIter_next_unfold n h f :
  propFilterIter_next (S n) h f =
  objectPropIter_next (S n) h (filter_wrapped f) ≫= λ '(item, w),
    match w with
    | None => Ret (noItem, None)
    | Some w' =>
      if decide (item_name item ∈ filter_seen f) then
        propFilterIter_next n h (mkFilter w' (filter_all f) (filter_seen f))
      else
        (if filter_all f then Ret false else hidden h item) ≫= λ skip : bool,
          if skip
          then propFilterIter_next n h
                 (mkFilter w' (filter_all f) ({[item_name item]} ∪ filter_seen f))
          else Ret (item, Some (mkFilter w' (filter_all f)
                                  ({[item_name item]} ∪ filter_seen f)))
    end.
Proof. reflexivity. Qed.

(** One call of [propFilterIter.next] hands out the head of the filtered
    remainder. *)
Lemma propFilterIter_next_spec h all :
  ∀ R seen i o cs fuel,
    objs h !! iter_o i = Some o →
    protoChain h (prototype o) cs →
    remaining i o cs = R →
    Forall (itemPresent h) R →
    length R + length cs < fuel →
    match filterItems h all seen R with
    | [] => propFilterIter_next fuel h (mkFilter i all seen) = Ret (noItem, None)
    | item :: rest =>
      ∃ i' o' cs' seen',
        propFilterIter_next fuel h (mkFilter i all seen)
          = Ret (item, Some (mkFilter i' all seen')) ∧
        objs h !! iter_o i' = Some o' ∧
        protoChain h (prototype o') cs' ∧
        length cs' ≤ length cs ∧
        length (remaining i' o' cs') < length R ∧
        Forall (itemPresent h) (remaining i' o' cs') ∧
        filterItems h all seen' (remaining i' o' cs') = rest
    end.
Proof.
  induction R as [|item R IH]; intros seen i o cs fuel Ho Hchain Hrem Hpres Hfuel;
    (destruct fuel as [|n]; [lia|]);
    rewrite propFilterIter_next_unfold;
    pose proof (objectPropIter_next_spec h cs i o (S n) Ho Hchain ltac:(simpl in *; lia))
      as Hnext;
    rewrite Hrem in Hnext; cbn [filter_wrapped filter_all filter_seen].
  - rewrite Hnext. done.
  - destruct Hnext as (i' & o' & cs' & -> & Ho' & Hchain' & Hlen & _ & Hrem').
    apply Forall_cons in Hpres as [Hitem Hpres].
    assert (Hfuel' : length R + length cs' < n) by (simpl in Hfuel; lia).
    cbn [mbind result_bind filterItems].
    destruct (decide (item_name item ∈ seen)) as [Hseen|Hseen].
    + specialize (IH seen i' o' cs' n Ho' Hchain' Hrem' Hpres Hfuel').
      destruct (filterItems h all seen R) as [|item' rest]; [done|].
      destruct IH as (i'' & o'' & cs'' & seen'' & -> & ? & ? & ? & ? & ? & ?).
      exists i'', o'', cs'', seen''. repeat split; try done; simpl; lia.
    + specialize (IH ({[item_name item]} ∪ seen) i' o' cs' n Ho' Hchain' Hrem' Hpres Hfuel').
      destruct all; cbn [negb andb mbind result_bind].
      * exists i', o', cs', ({[item_name item]} ∪ seen).
        rewrite Hrem'. repeat split; try done. simpl. lia.
      * rewrite (isHidden_present h item Hitem). cbn [mbind result_bind].
        destruct (isHidden h item).
        -- destruct (filterItems h false ({[item_name item]} ∪ seen) R) as [|item' rest];
             [done|].
           destruct IH as (i'' & o'' & cs'' & seen'' & -> & ? & ? & ? & ? & ? & ?).
           exists i'', o'', cs'', seen''. repeat split; try done; simpl; lia.
        -- exists i', o', cs', ({[item_name item]} ∪ seen).
           rewrite Hrem'. repeat split; try done. simpl. lia.
Qed.

Lemma drain_unfold n h f :
  drain (S n) h f =
  propFilterIter_next (S n) h f ≫= λ '(item, f'),
    match f' with
    | None => Ret []
    | Some f'' => drain n h f'' ≫= λ rest, Ret (item :: rest)
    end.
Proof. reflexivity. Qed.

(** Draining the sequence yields the filtered remainder, given fuel for every
    remaining item and every object of the chain. *)
Lemma drain_spec h all :
  ∀ fuel R seen i o cs,
    objs h !! iter_o i = Some o →
    protoChain h (prototype o) cs →
    remaining i o cs = R →
    Forall (itemPresent h) R →
    length R + length cs < fuel →
    drain fuel h (mkFilter i all seen) = Ret (filterItems h all seen R).
Proof.
  induction fuel as [|n IH]; intros R seen i o cs Ho Hchain Hrem Hpres Hfuel; [lia|].
  rewrite drain_unfold.
  pose proof (propFilterIter_next_spec h all R seen i o cs (S n) Ho Hchain Hrem Hpres Hfuel)
    as Hnext.
  destruct (filterItems h all seen R) as [|item rest].
  - by rewrite Hnext.
  - destruct Hnext as (i' & o' & cs' & seen' & -> & Ho' & Hchain' & Hlen & HlenR & Hpres' & Hrest).
    cbn [mbind result_bind].
    rewrite (IH (remaining i' o' cs') seen' i' o' cs' Ho' Hchain' eq_refl Hpres'); [|lia].
    cbn [mbind result_bind]. by rewrite Hrest.
Qed.

(** ** Facts about the filtered list *)

Lemma filterItems_not_seen h all seen items item :
  item ∈ filterItems h all seen items → item_name item ∉ seen.
Proof.
  revert seen. induction items as [|it items IH]; intros seen; simpl.
  - by intros ?%elem_of_nil.
  - destruct (decide (item_name it ∈ seen)) as [Hin|Hout]; [by apply IH|].
    destruct (negb all && isHidden h it).
    + intros Hitem%IH. set_solver.
    + intros [->|Hitem%IH]%elem_of_cons; [done | set_solver].
Qed.

Lemma filterItems_elem_of h all seen items item :
  item ∈ filterItems h all seen items → item ∈ items.
Proof.
  revert seen. induction items as [|it items IH]; intros seen; simpl; [done|].
  destruct (decide (item_name it ∈ seen)); [intros ?%IH; by right|].
  destruct (negb all && isHidden h it); [intros ?%IH; by right|].
  intros [->|?%IH]%elem_of_cons; [by left | by right].
Qed.

Lemma filterItems_sublist h all seen items : sublist (filterItems h all seen items) items.
Proof.
  revert seen. induction items as [|it items IH]; intros seen; simpl; [done|].
  destruct (decide (item_name it ∈ seen)); [by apply sublist_cons|].
  destruct (negb all && isHidden h it); [by apply sublist_cons | by apply sublist_skip].
Qed.

Lemma filterItems_NoDup h all seen items :
  NoDup (item_name <$> filterItems h all seen items).
Proof.
  revert seen. induction items as [|it items IH]; intros seen; simpl; [apply NoDup_nil_2|].
  destruct (decide (item_name it ∈ seen)); [apply IH|].
  destruct (negb all && isHidden h it); [apply IH|].
  simpl. apply NoDup_cons. split; [|apply IH].
  intros (item & Hname & Hitem)%list_elem_of_fmap.
  apply filterItems_not_seen in Hitem. set_solver.
Qed.

Lemma filterItems_seen_ext h all seen seen' items :
  seen = seen' → filterItems h all seen items = filterItems h all seen' items.
Proof. by intros ->. Qed.

Lemma filterItems_app h all seen l1 l2 :
  filterItems h all seen (l1 ++ l2) =
  filterItems h all seen l1 ++
  filterItems h all (list_to_set (item_name <$> l1) ∪ seen) l2.
Proof.
  revert seen. induction l1 as [|it l1 IH]; intros seen; simpl.
  - apply filterItems_seen_ext. set_solver.
  - destruct (decide (item_name it ∈ seen)) as [Hin|Hout].
    + rewrite IH. f_equal. apply filterItems_seen_ext. set_solver.
    + destruct (negb all && isHidden h it); rewrite IH; simpl.
      * f_equal. apply filterItems_seen_ext. set_solver.
      * do 2 f_equal. apply filterItems_seen_ext. set_solver.
Qed.

Lemma storedItems_names o names k :
  k ∈ (item_name <$> storedItems o names) ↔ k ∈ names ∧ is_Some (valueAt o k).
Proof.
  induction names as [|n names IH]; unfold storedItems; simpl.
  - split; [by intros ?%elem_of_nil | by intros [?%elem_of_nil _]].
  - destruct (valueAt o n) as [v|] eqn:Hn; simpl; fold (storedItems o names).
    + rewrite elem_of_cons, IH, elem_of_cons. split.
      * intros [->|[? ?]]; [split; [by left | by rewrite Hn] | split; [by right | done]].
      * intros [[->|?] ?]; [by left | by right].
    + rewrite IH, elem_of_cons. split.
      * intros [? ?]. split; [by right | done].
      * intros [[->|?] Hs]; [|done]. rewrite Hn in Hs. by destruct Hs.
Qed.

Lemma storedItems_sublist o names : sublist (item_name <$> storedItems o names) names.
Proof.
  induction names as [|n names IH]; unfold storedItems; simpl; [done|].
  destruct (valueAt o n); simpl; fold (storedItems o names).
  - by apply sublist_skip.
  - by apply sublist_cons.
Qed.

Lemma storedItems_value o names item :
  item ∈ storedItems o names →
  item_name item ∈ names ∧ valueAt o (item_name item) = item_value item ∧
  item_enumerable item = _ENUM_UNKNOWN ∧ is_Some (item_value item).
Proof.
  induction names as [|n names IH]; unfold storedItems; simpl.
  - by intros ?%elem_of_nil.
  - destruct (valueAt o n) as [v|] eqn:Hn; simpl; fold (storedItems o names).
    + intros [->|Hitem]%elem_of_cons; simpl.
      * repeat split; [by left | done | by eexists].
      * destruct (IH Hitem) as (? & ? & ? & ?). repeat split; [by right | done ..].
    + intros Hitem. destruct (IH Hitem) as (? & ? & ? & ?).
      repeat split; [by right | done ..].
Qed.

Lemma storedItems_present h o names :
  recordsPresent h o → Forall (itemPresent h) (storedItems o names).
Proof.
  intros Hrec. apply Forall_forall. intros item Hitem.
  destruct (storedItems_value o names item Hitem) as (_ & Hval & Henum & _).
  unfold itemPresent, hidden. rewrite Henum.
  destruct (item_value item) as [[| | | | | |l]|] eqn:Hv; try by eexists.
  destruct (Hrec (item_name item) l Hval) as [p ->]. simpl. by eexists.
Qed.

Lemma chainItems_present h cs :
  Forall (recordsPresent h) cs → Forall (itemPresent h) (chainItems cs).
Proof.
  induction 1 as [|o cs Ho _ IH]; unfold chainItems; simpl; [done|].
  apply Forall_app. split; [by apply storedItems_present | done].
Qed.

Lemma chainItems_elem_of cs item :
  item ∈ chainItems cs →
  ∃ o, o ∈ cs ∧ item_name item ∈ propNames o ∧ is_Some (valueAt o (item_name item)).
Proof.
  induction cs as [|o cs IH]; unfold chainItems; simpl.
  - by intros ?%elem_of_nil.
  - intros [Hitem|Hitem]%elem_of_app.
    + exists o. destruct (storedItems_value _ _ _ Hitem) as (? & Hv & _ & ?).
      split; [by left|]. split; [done|]. by rewrite Hv.
    + destruct (IH Hitem) as (o' & ? & ? & ?). exists o'. split; [by right | done].
Qed.

Lemma filterItems_own_names h o all names seen k :
  k ∈ (item_name <$> filterItems h all seen (storedItems o names)) ↔
  (k ∉ seen) ∧ k ∈ names ∧ visibleOwn h o all k.
Proof.
  revert seen. induction names as [|n names IH]; intros seen.
  - unfold storedItems. simpl. split; [by intros ?%elem_of_nil|].
    by intros (_ & ?%elem_of_nil & _).
  - unfold storedItems. simpl.
    destruct (valueAt o n) as [v|] eqn:Hn; simpl; fold (storedItems o names).
    + destruct (decide (n ∈ seen)) as [Hin|Hout].
      * rewrite IH, elem_of_cons. split; [naive_solver|].
        intros (Hk & [->|?] & ?); [done | naive_solver].
      * destruct (negb all && isHidden h _) eqn:Hhid.
        -- assert (Hnvis : ¬ visibleOwn h o all n).
           { intros (v' & Hv' & Hshow). rewrite Hn in Hv'. injection Hv' as <-.
             apply andb_true_iff in Hhid as [Hall Hh].
             destruct Hshow as [->|Hshow]; [done | congruence]. }
           rewrite IH, elem_of_cons. split.
           ++ intros (Hk & Hin & Hvis). split; [set_solver|]. split; [by right | done].
           ++ intros (Hk & Hin & Hvis).
              assert (k ≠ n) by (intros ->; done).
              split; [set_solver|]. split; [|done]. by destruct Hin.
        -- simpl. rewrite elem_of_cons, IH, elem_of_cons. split.
           ++ intros [->|?]; [|set_solver].
              split; [done|]. split; [by left|]. exists v. split; [done|].
              apply andb_false_iff in Hhid as [Hall|Hh]; [left | by right].
              by destruct all.
           ++ intros (Hk & [->|?] & ?); [by left|].
              destruct (decide (k = n)) as [->|Hne]; [by left | right; set_solver].
    + rewrite IH, elem_of_cons. split; [naive_solver|].
      intros (Hk & [->|?] & Hvis); [|naive_solver].
      destruct Hvis as (v' & Hv' & _). congruence.
Qed.

(** ** Enumeration: no duplicates, own keys first *)

Lemma enumerate_drain (h : Heap) (a : addr) (o : Object) (cs : list Object)
    (names : list string) (all rec : bool) (fuel : nat) :
  objs h !! a = Some o →
  protoChain h (prototype o) cs →
  Forall (recordsPresent h) (o :: cs) →
  length (storedItems o names) + length (chainItems cs) + length cs < fuel →
  drain fuel h (mkFilter (mkIter a names rec 0) all ∅)
  = Ret (filterItems h all ∅
           (storedItems o names ++ (if rec then chainItems cs else []))).
Proof.
  intros Ho Hchain Hrec Hfuel.
  apply Forall_cons in Hrec as [Hrec Hrecs].
  apply (drain_spec h all fuel
           (storedItems o names ++ (if rec then chainItems cs else []))
           ∅ (mkIter a names rec 0) o cs); [done | done | done | |].
  - apply Forall_app. split; [by apply storedItems_present|].
    destruct rec; [by apply chainItems_present | done].
  - rewrite length_app. destruct rec; simpl; lia.
Qed.

(** C5: for every object with a finite prototype chain and both flags, the
    sequence of [enumerate] comes to an end and names no key twice; the names
    are the own keys that show, a subsequence of [propNames] (the order of
    first insertion), followed by names that are no stored own key and are
    stored on an ancestor; without [recursive] nothing follows the own
    keys. *)
Theorem enumerate_no_duplicates (h : Heap) (a : addr) (o : Object)
    (cs : list Object) (all recursive : bool) :
  objs h !! a = Some o →
  protoChain h (prototype o) cs →
  Forall (recordsPresent h) (o :: cs) →
  ∃ (items : list propIterItem) (own inherited : list string) (n : nat),
    (∀ fuel, n ≤ fuel → enumerate h a all recursive ≫= drain fuel h = Ret items) ∧
    NoDup (item_name <$> items) ∧
    item_name <$> items = own ++ inherited ∧
    sublist own (propNames o) ∧
    (∀ k, k ∈ own ↔ k ∈ propNames o ∧ visibleOwn h o all k) ∧
    (∀ k, k ∈ inherited →
       ¬ (k ∈ propNames o ∧ is_Some (valueAt o k)) ∧
       ∃ o', o' ∈ cs ∧ k ∈ propNames o' ∧ is_Some (valueAt o' k)) ∧
    (recursive = false → inherited = []).
Proof.
  intros Ho Hchain Hrec.
  set (ownItems := storedItems o (propNames o)).
  set (up := if recursive then chainItems cs else []).
  set (seen := list_to_set (item_name <$> ownItems) ∪ (∅ : gset string)).
  exists (filterItems h all ∅ (ownItems ++ up)),
         (item_name <$> filterItems h all ∅ ownItems),
         (item_name <$> filterItems h all seen up),
         (S (length ownItems + length (chainItems cs) + length cs)).
  split; [|split; [|split; [|split; [|split; [|split]]]]].
  - intros fuel Hfuel. unfold enumerate, _enumerate. rewrite Ho. simpl.
    by apply (enumerate_drain h a o cs).
  - apply filterItems_NoDup.
  - rewrite filterItems_app. by rewrite fmap_app.
  - etrans; [|apply (storedItems_sublist o)].
    apply fmap_sublist, filterItems_sublist.
  - intros k. unfold ownItems. rewrite filterItems_own_names.
    split; [by intros (_ & ? & ?) | intros [? ?]; split; [apply not_elem_of_empty | done]].
  - intros k (item & -> & Hitem)%list_elem_of_fmap. split.
    + intros Hown. apply storedItems_names in Hown.
      apply filterItems_not_seen in Hitem. apply Hitem. unfold seen.
      apply elem_of_union_l, elem_of_list_to_set. exact Hown.
    + apply filterItems_elem_of in Hitem. unfold up in Hitem.
      destruct recursive; [by apply chainItems_elem_of | by apply elem_of_nil in Hitem].
  - intros ->. done.
Qed.

Lemma enumSample_chain : protoChain EnumSample.h (prototype EnumSample.child) [EnumSample.parent].
Proof.
  apply (protoChain_step EnumSample.h 2 EnumSample.parent []); [reflexivity|]. apply protoChain_end.
Defined.

Lemma enumSample_present : Forall (recordsPresent EnumSample.h) [EnumSample.child; EnumSample.parent].
Proof.
  assert (Hrec : ∀ o, (∀ name l, valueAt o name = Some (valuePropertyPtr l) → l = 1%positive)
                      → recordsPresent EnumSample.h o).
  { intros o Hl name l Hv. rewrite (Hl name l Hv). by eexists. }
  assert (Hat : ∀ kv name, valueAt (Sample.plain None true kv) name
                           = default None (list_to_map (M := gmap string Value) kv !! name))
    by done.
  repeat apply Forall_cons_2; [| |apply Forall_nil_2]; apply Hrec; intros name l.
  - unfold valueAt, EnumSample.child. simpl.
    destruct (decide (name = "a")) as [->|]; [by rewrite lookup_insert_eq|].
    rewrite lookup_insert_ne by done.
    destruct (decide (name = "b")) as [->|];
      [rewrite lookup_insert_eq; by intros [= <-]|].
    rewrite lookup_insert_ne by done.
    destruct (decide (name = "c")) as [->|]; [by rewrite lookup_insert_eq|].
    by rewrite lookup_insert_ne, lookup_empty by done.
  - unfold valueAt, EnumSample.parent. simpl.
    destruct (decide (name = "c")) as [->|]; [by rewrite lookup_insert_eq|].
    rewrite lookup_insert_ne by done.
    destruct (decide (name = "d")) as [->|]; [by rewrite lookup_insert_eq|].
    by rewrite lookup_insert_ne, lookup_empty by done.
Defined.

Lemma enumerate_no_duplicates_witness :
  ∃ (items : list propIterItem) (own inherited : list string) (n : nat),
    (∀ fuel, n ≤ fuel →
       enumerate EnumSample.h 1 false true ≫= drain fuel EnumSample.h = Ret items) ∧
    NoDup (item_name <$> items) ∧
    item_name <$> items = own ++ inherited ∧
    sublist own (propNames EnumSample.child) ∧
    (∀ k, k ∈ own ↔ k ∈ propNames EnumSample.child ∧
                     visibleOwn EnumSample.h EnumSample.child false k) ∧
    (∀ k, k ∈ inherited →
       ¬ (k ∈ propNames EnumSample.child ∧ is_Some (valueAt EnumSample.child k)) ∧
       ∃ o', o' ∈ [EnumSample.parent] ∧ k ∈ propNames o' ∧ is_Some (valueAt o' k)) ∧
    (true = false → inherited = []).
Proof.
  exact (enumerate_no_duplicates EnumSample.h 1 EnumSample.child [EnumSample.parent]
           false true eq_refl enumSample_chain enumSample_present).
Defined.

(** On the sample the sequence is [a], [c], [d]: [b] is hidden, and the [c]
    of the prototype is shadowed. *)
Example enumerate_sample :
  enumerate EnumSample.h 1 false true ≫= drain 10 EnumSample.h
  = Ret [mkItem "a" (Some (valueInt 1)) _ENUM_UNKNOWN;
         mkItem "c" (Some (valueInt 3)) _ENUM_UNKNOWN;
         mkItem "d" (Some (valueInt 40)) _ENUM_UNKNOWN].
Proof. vm_compute. reflexivity. Qed.

(** ** Enumeration: what the snapshot fixes *)

(** C6, as stated, fails: a sequence produced before the property [c] is
    deleted yields [a] and [c] when drained in the heap it came from, and
    only [a] when drained after the delete. *)
Lemma enumerate_then_delete :
  ∃ f h1,
    enumerate EnumSample.h 1 false false = Ret f ∧
    deleteStr EnumSample.h 1 "c" false = Ret (h1, true) ∧
    drain 10 EnumSample.h f
      = Ret [mkItem "a" (Some (valueInt 1)) _ENUM_UNKNOWN;
             mkItem "c" (Some (valueInt 3)) _ENUM_UNKNOWN] ∧
    drain 10 h1 f = Ret [mkItem "a" (Some (valueInt 1)) _ENUM_UNKNOWN].
Proof.
  eexists _, _. split; [reflexivity|]. split; [reflexivity|].
  split; vm_compute; reflexivity.
Qed.

(** C6, amended: [enumerate] starts a fresh sequence on a copy of the own
    key order of that moment, with an empty seen-set.  Drained in a later
    heap, the sequence yields the copied names that hold a value in that
    heap, filtered by the enumerability found there, and then (when
    recursive) the keys of the prototype chain of that heap: without
    [recursive], every item's name is one of the copied names, so a property
    added after the sequence was produced is not yielded, while a deleted
    one is skipped and the values are the current ones.  A sequence requested
    in the later heap follows the key order of that heap. *)
Theorem enumerate_snapshot (h h' : Heap) (a : addr) (o o' : Object)
    (cs' : list Object) (all recursive : bool) :
  objs h !! a = Some o →
  objs h' !! a = Some o' →
  protoChain h' (prototype o') cs' →
  Forall (recordsPresent h') (o' :: cs') →
  ∃ (f : propFilterIter) (items : list propIterItem) (n : nat),
    enumerate h a all recursive = Ret f ∧
    filter_wrapped f = mkIter a (propNames o) recursive 0 ∧
    filter_seen f = ∅ ∧
    (∀ fuel, n ≤ fuel → drain fuel h' f = Ret items) ∧
    items = filterItems h' all ∅
              (storedItems o' (propNames o) ++
               (if recursive then chainItems cs' else [])) ∧
    (recursive = false →
       ∀ item, item ∈ items →
         item_name item ∈ propNames o ∧
         item_value item = valueAt o' (item_name item)) ∧
    (∀ fuel, n ≤ fuel →
       enumerate h' a all recursive ≫= drain fuel h'
       = Ret (filterItems h' all ∅
                (storedItems o' (propNames o') ++
                 (if recursive then chainItems cs' else [])))).
Proof.
  intros Ho Ho' Hchain Hrec.
  exists (mkFilter (mkIter a (propNames o) recursive 0) all ∅).
  eexists.
  exists (S (length (storedItems o' (propNames o)) +
             length (storedItems o' (propNames o')) +
             length (chainItems cs') + length cs')).
  split; [|split; [|split; [|split; [|split; [|split]]]]].
  - unfold enumerate, _enumerate. by rewrite Ho.
  - done.
  - done.
  - intros fuel Hfuel. apply (enumerate_drain h' a o' cs'); try done. lia.
  - done.
  - intros -> item Hitem. apply filterItems_elem_of in Hitem.
    rewrite app_nil_r in Hitem.
    destruct (storedItems_value o' (propNames o) item Hitem) as (? & ? & _). done.
  - intros fuel Hfuel. unfold enumerate, _enumerate. rewrite Ho'. simpl.
    apply (enumerate_drain h' a o' cs'); try done. lia.
Qed.

Lemma recordsPresent_insert h o k v ns :
  recordsPresent h o →
  (∀ l, v ≠ Some (valuePropertyPtr l)) →
  recordsPresent h (withValues o (<[k := v]> (values o)) ns).
Proof.
  intros Hrec Hv name l. unfold valueAt. simpl.
  destruct (decide (k = name)) as [->|Hne].
  - rewrite lookup_insert_eq. simpl. intros ->. by destruct (Hv l).
  - rewrite lookup_insert_ne by done. apply Hrec.
Qed.

Lemma snapshotSample_chain : protoChain SnapshotSample.h' (prototype SnapshotSample.child') [EnumSample.parent].
Proof.
  apply (protoChain_step SnapshotSample.h' 2 EnumSample.parent []); [reflexivity|]. apply protoChain_end.
Defined.

Lemma snapshotSample_present : Forall (recordsPresent SnapshotSample.h') [SnapshotSample.child'; EnumSample.parent].
Proof.
  pose proof enumSample_present as Hp.
  apply Forall_cons in Hp as [Hchild Hp].
  apply Forall_cons_2; [|exact Hp].
  apply (recordsPresent_insert EnumSample.h EnumSample.child); [exact Hchild|].
  intros l. discriminate.
Defined.

Lemma enumerate_snapshot_witness :
  ∃ (f : propFilterIter) (items : list propIterItem) (n : nat),
    enumerate EnumSample.h 1 false false = Ret f ∧
    filter_wrapped f = mkIter 1 (propNames EnumSample.child) false 0 ∧
    filter_seen f = ∅ ∧
    (∀ fuel, n ≤ fuel → drain fuel SnapshotSample.h' f = Ret items) ∧
    items = filterItems SnapshotSample.h' false ∅
              (storedItems SnapshotSample.child' (propNames EnumSample.child) ++ []) ∧
    (false = false →
       ∀ item, item ∈ items →
         item_name item ∈ propNames EnumSample.child ∧
         item_value item = valueAt SnapshotSample.child' (item_name item)) ∧
    (∀ fuel, n ≤ fuel →
       enumerate SnapshotSample.h' 1 false false ≫= drain fuel SnapshotSample.h'
       = Ret (filterItems SnapshotSample.h' false ∅
                (storedItems SnapshotSample.child' (propNames SnapshotSample.child') ++ []))).
Proof.
  exact (enumerate_snapshot EnumSample.h SnapshotSample.h' 1 EnumSample.child
           SnapshotSample.child' [EnumSample.parent] false false
           eq_refl eq_refl snapshotSample_chain snapshotSample_present).
Defined.

(** On the sample: the sequence produced before [z] was added yields [a] and
    [c] in the later heap; one requested afterwards yields [z] as well. *)
Example enumerate_snapshot_sample :
  (enumerate EnumSample.h 1 false false ≫= drain 10 SnapshotSample.h'
   = Ret [mkItem "a" (Some (valueInt 1)) _ENUM_UNKNOWN;
          mkItem "c" (Some (valueInt 3)) _ENUM_UNKNOWN]) ∧
  (enumerate SnapshotSample.h' 1 false false ≫= drain 10 SnapshotSample.h'
   = Ret [mkItem "a" (Some (valueInt 1)) _ENUM_UNKNOWN;
          mkItem "c" (Some (valueInt 3)) _ENUM_UNKNOWN;
          mkItem "z" (Some (valueInt 9)) _ENUM_UNKNOWN]).
Proof. split; vm_compute; reflexivity. Qed.

(** * Further properties *)

(** ** Storage: keys and values in step *)

Lemma removeFirst_elem_of k l x :
  NoDup l → x ∈ removeFirst k l ↔ x ∈ l ∧ x ≠ k.
Proof.
  induction 1 as [|n l Hn Hnd IH]; simpl.
  - split; [by intros ?%elem_of_nil | by intros [?%elem_of_nil _]].
  - destruct (String.eqb n k) eqn:E.
    + apply String.eqb_eq in E as ->. rewrite elem_of_cons. split.
      * intros Hx. split; [by right | by intros ->].
      * by intros [[->|?] ?].
    + apply String.eqb_neq in E. rewrite !elem_of_cons, IH. split.
      * intros [->|[? ?]]; [split; [by left | done] | split; [by right | done]].
      * intros [[->|?] ?]; [by left | by right].
Qed.

Lemma removeFirst_sublist k l : sublist (removeFirst k l) l.
Proof.
  induction l as [|n l IH]; simpl; [done|].
  destruct (String.eqb n k); [by apply sublist_cons | by apply sublist_skip].
Qed.

Lemma removeFirst_absent k l : k ∉ l → removeFirst k l = l.
Proof.
  induction l as [|n l IH]; simpl; [done|]. intros Hk.
  destruct (String.eqb n k) eqn:E.
  - apply String.eqb_eq in E as ->. destruct Hk. by left.
  - f_equal. apply IH. intros ?. apply Hk. by right.
Qed.

Lemma keysInSync_overwrite o k v :
  keysInSync o → is_Some (values o !! k) → v ≠ None →
  keysInSync (withValues o (<[k := v]> (values o)) (propNames o)).
Proof.
  intros (Hnd & Hkeys & Hnil) Hk Hv. repeat split; simpl; try done.
  - intros Hin. destruct (decide (k = k0)) as [->|Hne].
    + rewrite lookup_insert_eq. by eexists.
    + rewrite lookup_insert_ne by done. by apply Hkeys.
  - destruct (decide (k = k0)) as [->|Hne].
    + intros _. by apply Hkeys.
    + rewrite lookup_insert_ne by done. by apply Hkeys.
  - intros k0. destruct (decide (k = k0)) as [->|Hne].
    + rewrite lookup_insert_eq. congruence.
    + rewrite lookup_insert_ne by done. apply Hnil.
Qed.

Lemma keysInSync_append o k v :
  keysInSync o → values o !! k = None → v ≠ None →
  keysInSync (withValues o (<[k := v]> (values o)) (propNames o ++ [k])).
Proof.
  intros (Hnd & Hkeys & Hnil) Hk Hv.
  assert (Hout : k ∉ propNames o).
  { intros Hin%Hkeys. rewrite Hk in Hin. by destruct Hin. }
  repeat split; simpl.
  - apply NoDup_app. repeat split; [done | | apply NoDup_singleton].
    intros x Hx ->%list_elem_of_singleton. done.
  - intros [Hin| ->%list_elem_of_singleton]%elem_of_app.
    + rewrite lookup_insert_ne by (intros ->; done). by apply Hkeys.
    + rewrite lookup_insert_eq. by eexists.
  - destruct (decide (k = k0)) as [->|Hne].
    + intros _. apply elem_of_app. right. by apply list_elem_of_singleton.
    + rewrite lookup_insert_ne by done. intros Hs. apply elem_of_app. left.
      by apply Hkeys.
  - intros k0. destruct (decide (k = k0)) as [->|Hne].
    + rewrite lookup_insert_eq. congruence.
    + rewrite lookup_insert_ne by done. apply Hnil.
Qed.

Lemma keysInSync_delete o k :
  keysInSync o →
  keysInSync (withValues o (delete k (values o)) (removeFirst k (propNames o))).
Proof.
  intros (Hnd & Hkeys & Hnil). repeat split; simpl.
  - exact (sublist_NoDup _ _ Hnd (removeFirst_sublist _ _)).
  - intros [Hin Hne]%removeFirst_elem_of; [|done].
    rewrite lookup_delete_ne by done. by apply Hkeys.
  - intros Hs. apply removeFirst_elem_of; [done|].
    destruct (decide (k = k0)) as [->|Hne].
    + rewrite lookup_delete_eq in Hs. by destruct Hs.
    + rewrite lookup_delete_ne in Hs by done. split; [by apply Hkeys | done].
  - intros k0. destruct (decide (k = k0)) as [->|Hne].
    + by rewrite lookup_delete_eq.
    + rewrite lookup_delete_ne by done. apply Hnil.
Qed.

(** The ways in which [putStr] returns normally. *)
Lemma putStr_PutDone_inv fuel h a o k v throw h' :
  objs h !! a = Some o →
  putStr fuel h a k v throw = Ret (PutDone h') →
  (∃ l prop, props h !! l = Some prop ∧ h' = setProp h l (withValue prop v)) ∨
  (is_Some (values o !! k) ∧
   h' = setObj h a (withValues o (<[k := v]> (values o)) (propNames o))) ∨
  (k = __proto__ ∧ values o !! k = None ∧
   (h' = h ∨ ∃ p, h' = setObj h a (withPrototype o p))) ∨
  (k ≠ __proto__ ∧ values o !! k = None ∧ h' = createOwn h a o k v).
Proof.
  intros Ho Hput. unfold putStr in Hput. rewrite Ho in Hput. simpl in Hput.
  assert (Hset : ∀ l prop, props h !! l = Some prop →
            Ret (valueProperty_set h l prop a v) = Ret (PutDone h') →
            ∃ l prop, props h !! l = Some prop ∧ h' = setProp h l (withValue prop v)).
  { intros l prop Hl Hs. unfold valueProperty_set in Hs.
    destruct (setterFunc prop); [discriminate|]. injection Hs as <-. eauto. }
  assert (Hproto : ∀ p, setProto fuel h a p ≫=
              (λ '(h1, ex), match ex with Some e => Raise h1 e | None => Ret (PutDone h1) end)
              = Ret (PutDone h') →
            h' = h ∨ ∃ p, h' = setObj h a (withPrototype o p)).
  { intros p Hp. inv_bind Hp. destruct x as [h1 [e|]]; [discriminate|].
    injection Hp as <-. unfold setProto in Hx. rewrite Ho in Hx. simpl in Hx.
    destruct (Object_SameAs (prototype o) p); [injection Hx as <-; by left|].
    destruct (extensible o); simpl in Hx; [|discriminate].
    inv_bind Hx. destruct x; [discriminate|]. injection Hx as <-. right. eauto. }
  destruct (values o !! k) as [[[| | | | | |l]|]|] eqn:Hk;
    try (injection Hput as <-; right; left; split; [by eexists | done]).
  - inv_bind Hput. destruct (isWritable x); simpl in Hput.
    + left. by apply (Hset l x).
    + by destruct throw.
  - destruct (String.eqb k __proto__) eqn:Hkp.
    + apply String.eqb_eq in Hkp. right. right. left. split; [done|]. split; [done|].
      destruct v as [[| | | | |p|]|]; try (injection Hput as <-; by left).
      * by apply (Hproto None).
      * by apply (Hproto p).
    + apply String.eqb_neq in Hkp. inv_bind Hput.
      assert (Hcreate : Ret (PutDone (createOwn h a o k v)) = Ret (PutDone h') →
                h' = createOwn h a o k v).
      { by intros [= <-]. }
      destruct x as [[| | | | | |l]|];
        try (right; right; right; split; [done|]; split; [done|]; by apply Hcreate).
      * inv_bind Hput. destruct (isWritable x); simpl in Hput; [|by destruct throw].
        destruct (accessor x); [left; by apply (Hset l x)|].
        right. right. right. split; [done|]. split; [done|]. by apply Hcreate.
      * destruct (extensible o); simpl in Hput; [|by destruct throw].
        right. right. right. split; [done|]. split; [done|]. by apply Hcreate.
Qed.

(** X1: when [putStr] returns normally, the receiver's [values] and
    [propNames] are still in step (for a value that is not nil). *)
Theorem putStr_keysInSync (fuel : nat) (h : Heap) (a : addr) (o : Object)
    (k : string) (v : val) (throw : bool) (h' : Heap) :
  objs h !! a = Some o →
  keysInSync o →
  putStr fuel h a k (Some v) throw = Ret (PutDone h') →
  ∃ o', objs h' !! a = Some o' ∧ keysInSync o'.
Proof.
  intros Ho Hsync Hput.
  destruct (putStr_PutDone_inv _ _ _ _ _ _ _ _ Ho Hput)
    as [(l & prop & _ & ->)|[[Hk ->]|[(_ & _ & [->|[p ->]])|(_ & Hk & ->)]]].
  - exists o. by split.
  - eexists. split; [simpl; by rewrite lookup_insert_eq|].
    by apply keysInSync_overwrite.
  - exists o. by split.
  - eexists. split; [simpl; by rewrite lookup_insert_eq|]. exact Hsync.
  - eexists. split; [simpl; by rewrite lookup_insert_eq|].
    by apply keysInSync_append.
Qed.

(** X2: a normal return of [putStr] touches no other object and, on the
    receiver, no other key: the extensible flag and the values of all other
    names are as before, the prototype link changes only for ["__proto__"],
    and [propNames] is as before or longer by the assigned name. *)
Theorem putStr_frame (fuel : nat) (h : Heap) (a : addr) (o : Object)
    (k : string) (v : Value) (throw : bool) (h' : Heap) :
  objs h !! a = Some o →
  putStr fuel h a k v throw = Ret (PutDone h') →
  (∀ b, b ≠ a → objs h' !! b = objs h !! b) ∧
  regs h' = regs h ∧ wmaps h' = wmaps h ∧
  ∃ o', objs h' !! a = Some o' ∧
        extensible o' = extensible o ∧
        (∀ k', k' ≠ k → values o' !! k' = values o !! k') ∧
        (k ≠ __proto__ → prototype o' = prototype o) ∧
        (propNames o' = propNames o ∨ propNames o' = propNames o ++ [k]).
Proof.
  intros Ho Hput.
  destruct (putStr_PutDone_inv _ _ _ _ _ _ _ _ Ho Hput)
    as [(l & prop & _ & ->)|[[Hk ->]|[(Hkp & _ & [->|[p ->]])|(_ & Hk & ->)]]];
    (split; [intros b Hb; simpl; try done; by rewrite lookup_insert_ne|]);
    (split; [done|]); (split; [done|]).
  - exists o. repeat split; try done. by left.
  - eexists. split; [simpl; by rewrite lookup_insert_eq|]. simpl.
    repeat split; try done; [|by left].
    intros k' Hk'. by rewrite lookup_insert_ne.
  - exists o. repeat split; try done. by left.
  - eexists. split; [simpl; by rewrite lookup_insert_eq|]. simpl.
    repeat split; try done. by left.
  - eexists. split; [simpl; by rewrite lookup_insert_eq|]. simpl.
    repeat split; try done; [|by right].
    intros k' Hk'. by rewrite lookup_insert_ne.
Qed.

Lemma keysInSync_plain proto ext kv :
  NoDup (kv.*1) → (∀ k, (k, None) ∉ kv) → keysInSync (Sample.plain proto ext kv).
Proof.
  intros Hnd Hnil. repeat split; simpl; try done.
  - intros Hin. destruct (list_to_map (M := gmap string Value) kv !! k) eqn:E;
      [by eexists|].
    by apply not_elem_of_list_to_map in E.
  - intros [v Hv]. destruct (decide (k ∈ kv.*1)) as [|Hout]; [done|].
    apply (not_elem_of_list_to_map (M := gmap string)) in Hout. congruence.
  - intros k Hk. apply elem_of_list_to_map_2 in Hk. by apply (Hnil k).
Qed.

Lemma keysInSync_child : keysInSync (InheritSample.child false).
Proof.
  apply keysInSync_plain; [apply NoDup_nil_2 | intros k Hk; by apply elem_of_nil in Hk].
Defined.

Lemma putStr_keysInSync_witness :
  ∃ o', objs (createOwn (InheritSample.h false) 1 (InheritSample.child false)
                "x" (Some (valueInt 5))) !! 1%positive = Some o' ∧
        keysInSync o'.
Proof.
  exact (putStr_keysInSync 5 (InheritSample.h false) 1 (InheritSample.child false)
           "x" (valueInt 5) false _ eq_refl keysInSync_child eq_refl).
Defined.

Lemma putStr_frame_witness :
  (∀ b, b ≠ 1%positive →
     objs (createOwn (InheritSample.h false) 1 (InheritSample.child false)
             "x" (Some (valueInt 5))) !! b = objs (InheritSample.h false) !! b) ∧
  regs (createOwn (InheritSample.h false) 1 (InheritSample.child false)
          "x" (Some (valueInt 5))) = regs (InheritSample.h false) ∧
  wmaps (createOwn (InheritSample.h false) 1 (InheritSample.child false)
           "x" (Some (valueInt 5))) = wmaps (InheritSample.h false) ∧
  ∃ o', objs (createOwn (InheritSample.h false) 1 (InheritSample.child false)
                "x" (Some (valueInt 5))) !! 1%positive = Some o' ∧
        extensible o' = extensible (InheritSample.child false) ∧
        (∀ k', k' ≠ "x" → values o' !! k' = values (InheritSample.child false) !! k') ∧
        ("x" ≠ __proto__ → prototype o' = prototype (InheritSample.child false)) ∧
        (propNames o' = propNames (InheritSample.child false) ∨
         propNames o' = propNames (InheritSample.child false) ++ ["x"]).
Proof.
  exact (putStr_frame 5 (InheritSample.h false) 1 (InheritSample.child false)
           "x" (Some (valueInt 5)) false _ eq_refl eq_refl).
Defined.

(** ** Deleting *)

(** The ways in which [deleteStr] returns. *)
Lemma deleteStr_inv h a o k throw h' ok :
  objs h !! a = Some o →
  deleteStr h a k throw = Ret (h', ok) →
  (values o !! k = None ∧ h' = h ∧ ok = true) ∨
  (is_Some (values o !! k) ∧ h' = _delete h a o k ∧ ok = true) ∨
  (∃ l p, values o !! k = Some (Some (valuePropertyPtr l)) ∧ props h !! l = Some p ∧
          configurable p = false ∧ h' = h ∧ ok = false ∧ throw = false).
Proof.
  intros Ho Hdel. unfold deleteStr in Hdel. rewrite Ho in Hdel. simpl in Hdel.
  destruct (values o !! k) as [v|] eqn:Hk.
  - inv_bind Hdel. destruct x.
    + injection Hdel as <- <-. right. left. split; [by eexists | done].
    + destruct throw; [discriminate|]. injection Hdel as <- <-.
      right. right. unfold checkDelete in Hx.
      destruct v as [[| | | | | |l]|]; try discriminate.
      inv_bind Hx. injection Hx as Hc. exists l, x. done.
  - injection Hdel as <- <-. by left.
Qed.

(** X3: after a [deleteStr] that reports success the object holds no value
    under the name, whether it held one before or not; the values of all
    other names, the other objects and the property records are untouched,
    and [propNames] loses the first occurrence of the name when the name was
    stored. *)
Theorem deleteStr_removes (h : Heap) (a : addr) (o : Object) (k : string)
    (throw : bool) (h' : Heap) :
  objs h !! a = Some o →
  deleteStr h a k throw = Ret (h', true) →
  (∀ b, b ≠ a → objs h' !! b = objs h !! b) ∧
  props h' = props h ∧
  ∃ o', objs h' !! a = Some o' ∧
        values o' !! k = None ∧
        hasOwnPropertyStr o' k = false ∧
        (∀ k', k' ≠ k → values o' !! k' = values o !! k') ∧
        (is_Some (values o !! k) → propNames o' = removeFirst k (propNames o)) ∧
        (values o !! k = None → propNames o' = propNames o).
Proof.
  intros Ho Hdel.
  destruct (deleteStr_inv _ _ _ _ _ _ _ Ho Hdel)
    as [(Hk & -> & _)|[(Hk & -> & _)|(l & p & _ & _ & _ & _ & [=] & _)]].
  - repeat split; try done. exists o. repeat split; try done.
    + unfold hasOwnPropertyStr, valueAt. by rewrite Hk.
    + intros Hs. rewrite Hk in Hs. by destruct Hs.
  - split; [intros b Hb; simpl; by rewrite lookup_insert_ne|]. split; [done|].
    eexists. split; [simpl; by rewrite lookup_insert_eq|]. simpl.
    repeat split.
    + by rewrite lookup_delete_eq.
    + unfold hasOwnPropertyStr, valueAt. simpl. by rewrite lookup_delete_eq.
    + intros k' Hk'. by rewrite lookup_delete_ne.
    + intros Hnone. rewrite Hnone in Hk. by destruct Hk.
Qed.

Lemma deleteStr_removes_witness :
  ∃ h',
    deleteStr EnumSample.h 1 "c" false = Ret (h', true) ∧
    (∀ b, b ≠ 1%positive → objs h' !! b = objs EnumSample.h !! b) ∧
    props h' = props EnumSample.h ∧
    ∃ o', objs h' !! 1%positive = Some o' ∧
          values o' !! "c" = None ∧
          hasOwnPropertyStr o' "c" = false ∧
          (∀ k', k' ≠ "c" → values o' !! k' = values EnumSample.child !! k') ∧
          (is_Some (values EnumSample.child !! "c") →
             propNames o' = removeFirst "c" (propNames EnumSample.child)) ∧
          (values EnumSample.child !! "c" = None →
             propNames o' = propNames EnumSample.child).
Proof.
  eexists. split; [reflexivity|].
  exact (deleteStr_removes EnumSample.h 1 EnumSample.child "c" false _ eq_refl eq_refl).
Defined.

(** X4: [deleteStr] fails exactly on a stored record that is not
    configurable: for such a record it raises the type error with [throw]
    and returns [false] without it, in both cases with the heap untouched;
    and whenever it returns [false], the heap is the one it started from and
    the name holds such a record. *)
Theorem deleteStr_failure (h : Heap) (a : addr) (o : Object) (k : string)
    (throw : bool) :
  objs h !! a = Some o →
  (∀ l p, values o !! k = Some (Some (valuePropertyPtr l)) →
          props h !! l = Some p → configurable p = false →
          deleteStr h a k throw = if throw then Raise h ErrDelete else Ret (h, false)) ∧
  (∀ h', deleteStr h a k throw = Ret (h', false) →
         h' = h ∧
         ∃ l p, values o !! k = Some (Some (valuePropertyPtr l)) ∧
                props h !! l = Some p ∧ configurable p = false).
Proof.
  intros Ho. split.
  - intros l p Hk Hl Hc. unfold deleteStr. rewrite Ho. simpl. rewrite Hk. simpl.
    rewrite Hl. simpl. rewrite Hc. by destruct throw.
  - intros h' Hdel.
    destruct (deleteStr_inv _ _ _ _ _ _ _ Ho Hdel)
      as [(_ & _ & [=])|[(_ & _ & [=])|(l & p & Hk & Hl & Hc & -> & _)]].
    split; [done|]. by exists l, p.
Qed.

Lemma deleteStr_failure_witness :
  deleteStr FrozenSample.h 1 "x" true = Raise FrozenSample.h ErrDelete ∧
  deleteStr FrozenSample.h 1 "x" false = Ret (FrozenSample.h, false).
Proof.
  split.
  - destruct (deleteStr_failure FrozenSample.h 1 FrozenSample.obj "x" true eq_refl)
      as [Hfail _].
    apply (Hfail 1%positive FrozenSample.frozen); reflexivity.
  - destruct (deleteStr_failure FrozenSample.h 1 FrozenSample.obj "x" false eq_refl)
      as [Hfail _].
    apply (Hfail 1%positive FrozenSample.frozen); reflexivity.
Defined.

(** X5: [deleteStr] keeps [values] and [propNames] of the receiver in step,
    whatever it returns, and after a reported success the name is no longer
    listed in [propNames]. *)
Theorem deleteStr_keysInSync (h : Heap) (a : addr) (o : Object) (k : string)
    (throw : bool) (h' : Heap) (ok : bool) :
  objs h !! a = Some o →
  keysInSync o →
  deleteStr h a k throw = Ret (h', ok) →
  ∃ o', objs h' !! a = Some o' ∧ keysInSync o' ∧ (ok = true → k ∉ propNames o').
Proof.
  intros Ho Hsync Hdel.
  destruct (deleteStr_inv _ _ _ _ _ _ _ Ho Hdel)
    as [(Hk & -> & _)|[(Hk & -> & _)|(l & p & _ & _ & _ & -> & -> & _)]].
  - exists o. split; [done|]. split; [done|]. intros _.
    destruct Hsync as (_ & Hkeys & _). intros Hin%Hkeys. rewrite Hk in Hin.
    by destruct Hin.
  - eexists. split; [simpl; by rewrite lookup_insert_eq|].
    split; [by apply keysInSync_delete|]. simpl. intros _.
    destruct Hsync as (Hnd & _ & _). intros Hin%removeFirst_elem_of; [|done].
    by destruct Hin.
  - exists o. split; [done|]. split; [done|]. discriminate.
Qed.

Lemma keysInSync_enumChild : keysInSync EnumSample.child.
Proof.
  apply keysInSync_plain.
  - apply (bool_decide_unpack _). by vm_compute.
  - intros k Hin. simpl in Hin.
    repeat (apply elem_of_cons in Hin as [Hin|Hin]; [discriminate|]).
    by apply elem_of_nil in Hin.
Defined.

Lemma deleteStr_keysInSync_witness :
  ∃ h' o',
    deleteStr EnumSample.h 1 "b" false = Ret (h', true) ∧
    objs h' !! 1%positive = Some o' ∧ keysInSync o' ∧ (true = true → "b" ∉ propNames o').
Proof.
  eexists. 
  destruct (deleteStr_keysInSync EnumSample.h 1 EnumSample.child "b" false _ true
              eq_refl keysInSync_enumChild eq_refl) as (o' & Ho' & Hsync & Hout).
  exists o'. split; [reflexivity|]. split; [exact Ho'|]. split; [exact Hsync | exact Hout].
Defined.

(** ** Defining properties *)

Section DefineOwnPropertyMore.

Variable SameAs : val → Value → bool.
Variable propGetter : Heap → addr → Value → option (option addr).
Variable propSetter : Heap → addr → Value → option (option addr).

Let define := defineOwnProperty SameAs propGetter propSetter.
Let define1 := _defineOwnProperty SameAs propGetter propSetter.

Lemma applyDescr_Ret h a loc existing d h' v ok :
  applyDescr propGetter propSetter h a loc existing d = Ret (h', v, ok) →
  ok = true ∧ v ≠ None ∧ objs h' = objs h.
Proof.
  unfold applyDescr. destruct (_ && _) eqn:E.
  - intros [= <- <- <-]. apply andb_true_iff in E as [_ E].
    by apply bool_decide_eq_true in E.
  - intros H. inv_bind H. inv_bind H.
    destruct loc; injection H as <- <- <-; by repeat split.
Qed.

Lemma _defineOwnProperty_Ret h a o ev d throw h' v ok :
  define1 h a o ev d throw = Ret (h', v, ok) →
  (ok = false ∧ h' = h ∧ throw = false) ∨ (ok = true ∧ v ≠ None ∧ objs h' = objs h).
Proof.
  unfold define1, _defineOwnProperty.
  assert (Hrej : ∀ e, typeErrorResult h throw e (h, None, false) = Ret (h', v, ok) →
                      ok = false ∧ h' = h ∧ throw = false).
  { intros e. destruct throw; simpl; [discriminate|]. by intros [= <- <- <-]. }
  destruct ev as [[| | | | | |l]|];
    try (destruct (rejects _ _ _); [intros ?%Hrej; by left | intros ?%applyDescr_Ret; by right]).
  - intros H. inv_bind H.
    destruct (rejects _ _ _); [apply Hrej in H; by left | apply applyDescr_Ret in H; by right].
  - destruct (negb (extensible o)); [intros ?%Hrej; by left | intros ?%applyDescr_Ret; by right].
Qed.

(** X6: whenever [defineOwnProperty] returns [false], the heap is the one it
    started from: a refused definition changes nothing. *)
Theorem defineOwnProperty_failure_unchanged (h : Heap) (a : addr) (name : string)
    (d : PropertyDescriptor) (throw : bool) (h' : Heap) :
  define h a name d throw = Ret (h', false) → h' = h.
Proof.
  unfold define, defineOwnProperty. intros H. inv_bind H. inv_bind H.
  destruct x0 as [[h1 v] ok].
  apply _defineOwnProperty_Ret in Hx0 as [(-> & -> & _)|(-> & _ & _)].
  - by injection H as <-.
  - discriminate.
Qed.

(** X7: [defineOwnProperty] keeps [values] and [propNames] of the receiver in
    step, and after a success the name holds a value. *)
Theorem defineOwnProperty_keysInSync (h : Heap) (a : addr) (o : Object)
    (name : string) (d : PropertyDescriptor) (throw : bool) (h' : Heap) (ok : bool) :
  objs h !! a = Some o →
  keysInSync o →
  define h a name d throw = Ret (h', ok) →
  ∃ o', objs h' !! a = Some o' ∧ keysInSync o' ∧
        (ok = true → is_Some (valueAt o' name)).
Proof.
  intros Ho Hsync H. unfold define, defineOwnProperty in H. rewrite Ho in H.
  simpl in H. inv_bind H. destruct x as [[h1 v] ok1].
  apply _defineOwnProperty_Ret in Hx as [(-> & -> & _)|(-> & Hv & Hobjs)].
  - injection H as <- <-. exists o. split; [done|]. split; [done|]. discriminate.
  - injection H as <- <-. eexists. split; [simpl; by rewrite lookup_insert_eq|].
    split.
    + unfold valueAt. destruct (values o !! name) as [[x|]|] eqn:Hname; simpl.
      * apply keysInSync_overwrite; [done | by rewrite Hname | done].
      * by destruct Hsync as (_ & _ & Hnil); destruct (Hnil name).
      * by apply keysInSync_append.
    + intros _. rewrite (valueAt_insert_eq o name v); [|done].
      destruct v; [by eexists | done].
Qed.


(** X9: on an extensible object that holds nothing under the name, defining
    a data property (a value, no getter, no setter) succeeds, and reading the
    name afterwards gives the value; unless the descriptor says
    [writable=true], the new property refuses assignment. *)
Theorem defineOwnProperty_new_data (fuel : nat) (h : Heap) (a : addr) (o : Object)
    (name : string) (d : PropertyDescriptor) (v : val) (throw : bool) :
  objs h !! a = Some o →
  extensible o = true →
  valueAt o name = None →
  dValue d = Some v → (∀ l, v ≠ valuePropertyPtr l) →
  dGetter d = None → dSetter d = None →
  ∃ h',
    define h a name d throw = Ret (h', true) ∧
    getStr (S fuel) h' a name = Ret (GetVal (Some v)) ∧
    (dWritable d ≠ FLAG_TRUE →
       ∀ w, putStr fuel h' a name w false = Ret PutRejected).
Proof.
  intros Ho Hext Hat Hv Hplain Hg Hs.
  unfold define, defineOwnProperty, _defineOwnProperty. rewrite Ho. simpl.
  rewrite Hat, Hext. simpl. unfold applyDescr.
  destruct (_ && _) eqn:Hfast; simpl.
  - eexists. split; [done|]. split.
    + eapply getStr_own_plain; [simpl; by rewrite lookup_insert_eq | | done].
      rewrite Hv. by apply valueAt_insert_eq.
    + intros Hw. apply andb_true_iff in Hfast as [Hfast _].
      apply andb_true_iff in Hfast as [Hfast _].
      apply andb_true_iff in Hfast as [Hfast _].
      by apply bool_decide_eq_true in Hfast.
  - rewrite Hg, Hs. simpl. eexists. split; [done|].
    set (l := fresh (dom (props h))).
    set (p := withDefault (withData (withFlags zeroProp d) d)).
    assert (Hp : value p = Some v ∧ getterFunc p = None ∧ setterFunc p = None ∧
                 writable p = if decide (dWritable d = FLAG_NOT_SET) then false
                              else Flag_Bool (dWritable d)).
    { unfold p, withDefault, withData, withFlags. rewrite Hv. simpl. done. }
    destruct Hp as (Hpv & Hpg & Hps & Hpw).
    split.
    + unfold getStr. simpl. rewrite lookup_insert_eq. simpl.
      unfold getOwnPropStr, valueAt. simpl. rewrite lookup_insert_eq. simpl.
      rewrite lookup_insert_eq. simpl. unfold valueProperty_get.
      by rewrite Hpg, Hpv.
    + intros Hw w. unfold putStr. simpl. rewrite lookup_insert_eq. simpl.
      rewrite lookup_insert_eq. simpl. rewrite lookup_insert_eq. simpl.
      unfold isWritable. rewrite Hps, Hpw.
      destruct (dWritable d); simpl; done.
Qed.

End DefineOwnPropertyMore.

Lemma defineOwnProperty_failure_unchanged_witness :
  defineOwnProperty FrozenSample.SameAs FrozenSample.noAccessor FrozenSample.noAccessor
    FrozenSample.h 1 "x" (FrozenSample.valueOnly 8) false = Ret (FrozenSample.h, false) ∧
  FrozenSample.h = FrozenSample.h.
Proof.
  split; [reflexivity|].
  exact (defineOwnProperty_failure_unchanged FrozenSample.SameAs FrozenSample.noAccessor
           FrozenSample.noAccessor FrozenSample.h 1 "x" (FrozenSample.valueOnly 8) false
           FrozenSample.h eq_refl).
Defined.

Lemma keysInSync_frozenObj : keysInSync FrozenSample.obj.
Proof.
  apply keysInSync_plain.
  - apply (bool_decide_unpack _). by vm_compute.
  - intros k Hin. simpl in Hin.
    repeat (apply elem_of_cons in Hin as [Hin|Hin]; [discriminate|]).
    by apply elem_of_nil in Hin.
Defined.

Lemma defineOwnProperty_keysInSync_witness :
  ∃ h' o',
    defineOwnProperty FrozenSample.SameAs FrozenSample.noAccessor FrozenSample.noAccessor
      FrozenSample.h 1 "y" (FrozenSample.valueOnly 3) false = Ret (h', true) ∧
    objs h' !! 1%positive = Some o' ∧ keysInSync o' ∧
    (true = true → is_Some (valueAt o' "y")).
Proof.
  eexists.
  destruct (defineOwnProperty_keysInSync FrozenSample.SameAs FrozenSample.noAccessor
              FrozenSample.noAccessor FrozenSample.h 1 FrozenSample.obj "y"
              (FrozenSample.valueOnly 3) false _ true eq_refl keysInSync_frozenObj eq_refl)
    as (o' & Ho' & Hsync & Hval).
  exists o'. split; [reflexivity|]. split; [exact Ho'|]. split; [exact Hsync | exact Hval].
Defined.


Lemma defineOwnProperty_new_data_witness :
  ∃ h',
    defineOwnProperty FrozenSample.SameAs FrozenSample.noAccessor FrozenSample.noAccessor
      (InheritSample.h false) 1 "n" (FrozenSample.valueOnly 7) false = Ret (h', true) ∧
    getStr 6 h' 1 "n" = Ret (GetVal (Some (valueInt 7))) ∧
    (dWritable (FrozenSample.valueOnly 7) ≠ FLAG_TRUE →
       ∀ w, putStr 5 h' 1 "n" w false = Ret PutRejected).
Proof.
  apply (defineOwnProperty_new_data FrozenSample.SameAs FrozenSample.noAccessor
           FrozenSample.noAccessor 5 (InheritSample.h false) 1 (InheritSample.child false)
           "n" (FrozenSample.valueOnly 7) (valueInt 7) false); try reflexivity.
  intros l. discriminate.
Defined.

(** ** Reading along the prototype chain *)

Lemma getPropStr_nearest_aux (h : Heap) (name : string) (cs : list Object) :
  ∀ (a : addr) (o : Object) (fuel : nat),
    objs h !! a = Some o →
    protoChain h (prototype o) cs →
    name ≠ __proto__ →
    length cs < fuel →
    getPropStr fuel h a name = Ret (nearestValue name (o :: cs)).
Proof.
  induction cs as [|o1 cs IH]; intros a o fuel Ho Hchain Hname Hfuel;
    (destruct fuel as [|n]; [simpl in Hfuel; lia|]);
    simpl; rewrite Ho; simpl; unfold getOwnPropStr;
    rewrite (proj2 (String.eqb_neq _ _) Hname);
    destruct (valueAt o name); try done.
  - destruct (prototype o); [|done].
    by apply protoChain_Some_inv in Hchain as (? & ? & ? & _).
  - destruct (prototype o) as [p|]; [|by apply protoChain_None_inv in Hchain].
    apply protoChain_Some_inv in Hchain as (o1' & cs' & [= <- <-] & Hp & Hchain).
    rewrite (IH p o1 n Hp Hchain Hname); [done | simpl in Hfuel; lia].
Qed.


(** X10: for a name other than ["__proto__"], [getPropStr] returns the value
    stored by the nearest object of the prototype chain that stores the name
    (an own value hides every inherited one) and nil, not an error, when no
    object of the chain stores it; fuel beyond the length of the chain is
    enough. *)
Theorem getPropStr_nearest (h : Heap) (name : string) (cs : list Object) :
  ∀ (a : addr) (o : Object) (fuel : nat),
    objs h !! a = Some o →
    protoChain h (prototype o) cs →
    name ≠ __proto__ →
    length cs < fuel →
    getPropStr fuel h a name = Ret (nearestValue name (o :: cs)).
Proof. apply getPropStr_nearest_aux. Qed.

Lemma chainSample_chain : protoChain ChainSample.h (prototype ChainSample.objA)
                            [ChainSample.objB; ChainSample.objC].
Proof.
  apply (protoChain_step ChainSample.h 2 ChainSample.objB); [reflexivity|].
  apply (protoChain_step ChainSample.h 3 ChainSample.objC); [reflexivity|].
  apply protoChain_end.
Defined.

Lemma getPropStr_nearest_witness :
  getPropStr 3 ChainSample.h 1 "missing"
  = Ret (nearestValue "missing" [ChainSample.objA; ChainSample.objB; ChainSample.objC]).
Proof.
  apply (getPropStr_nearest ChainSample.h "missing" [ChainSample.objB; ChainSample.objC]
           1 ChainSample.objA 3 eq_refl chainSample_chain).
  - discriminate.
  - simpl. lia.
Defined.

(** X11: [hasPropertyStr] answers [true] for a name other than ["__proto__"]
    exactly when some object of the prototype chain stores the name; for
    ["__proto__"] on an object that stores no such entry it answers [true]
    whatever the prototype is, also when there is none. *)
Theorem hasPropertyStr_chain (h : Heap) (a : addr) (o : Object) (cs : list Object)
    (name : string) (fuel : nat) :
  objs h !! a = Some o →
  (protoChain h (prototype o) cs → name ≠ __proto__ → length cs < fuel →
   ∃ b, hasPropertyStr fuel h a name = Ret b ∧
        (b = true ↔ Exists (λ o', is_Some (valueAt o' name)) (o :: cs))) ∧
  (valueAt o __proto__ = None → hasPropertyStr (S fuel) h a __proto__ = Ret true).
Proof.
  intros Ho. split.
  - intros Hchain Hname Hfuel. unfold hasPropertyStr.
    rewrite (getPropStr_nearest_aux h name cs a o fuel Ho Hchain Hname Hfuel).
    cbn [mbind result_bind]. eexists. split; [reflexivity|].
    generalize (o :: cs). intros os. induction os as [|o' os IH]; simpl.
    + split; [discriminate | intros Hex; by apply Exists_nil in Hex].
    + rewrite Exists_cons. destruct (valueAt o' name) eqn:E.
      * split; [intros _; left; by eexists | done].
      * rewrite IH. split; [by right | intros [[? [=]]|?]; done].
  - intros Hat. unfold hasPropertyStr. simpl. rewrite Ho. simpl.
    unfold getOwnPropStr. by rewrite Hat.
Qed.

Lemma hasPropertyStr_chain_witness :
  (∃ b, hasPropertyStr 3 ChainSample.h 1 "missing" = Ret b ∧
        (b = true ↔ Exists (λ o', is_Some (valueAt o' "missing"))
                       [ChainSample.objA; ChainSample.objB; ChainSample.objC])) ∧
  hasPropertyStr 4 ChainSample.h 3 __proto__ = Ret true.
Proof.
  split.
  - destruct (hasPropertyStr_chain ChainSample.h 1 ChainSample.objA
                [ChainSample.objB; ChainSample.objC] "missing" 3 eq_refl) as [Hhas _].
    apply Hhas; [exact chainSample_chain | discriminate | simpl; lia].
  - destruct (hasPropertyStr_chain ChainSample.h 3 ChainSample.objC [] __proto__ 3 eq_refl)
      as [_ Hproto].
    apply Hproto. reflexivity.
Defined.

(** X12: the two read paths agree: [_getStr], which looks at the own entry
    first and then asks the prototype, gives what [getStr] gives with one
    more unit of fuel. *)
Theorem _getStr_getStr (fuel : nat) (h : Heap) (a : addr) (name : string) :
  _getStr fuel h a name = getStr (S fuel) h a name.
Proof.
  unfold _getStr, getStr. simpl.
  destruct (objs h !! a) as [o|]; simpl; [|done].
  destruct (getOwnPropStr o name) as [v|]; simpl; [done|].
  destruct (prototype o); simpl; done.
Qed.

(** ** Committing a prototype link *)

Lemma protoChainHas_false fuel h p target :
  protoChainHas fuel h p target = Ret false → ¬ onChain h target p.
Proof.
  revert p. induction fuel as [|n IH]; intros p Hhas Hon;
    destruct p as [b|]; simpl in Hhas; try by inversion Hon.
  - unfold Object_SameAs in Hhas. destruct (decide (Some b = Some target)) as [Heq|Hne].
    + by rewrite bool_decide_eq_true_2 in Hhas.
    + by rewrite bool_decide_eq_false_2 in Hhas.
  - unfold Object_SameAs in Hhas. destruct (decide (Some b = Some target)) as [Heq|Hne].
    + by rewrite bool_decide_eq_true_2 in Hhas.
    + rewrite bool_decide_eq_false_2 in Hhas by done.
      inv_bind Hhas. inversion Hon as [|b' o' Hb' Hup]; subst; [done|].
      rewrite Hx in Hb'. injection Hb' as <-. by apply (IH (prototype x)).
Qed.

Lemma onChain_setObj h a o' p : onChain (setObj h a o') a p → onChain h a p.
Proof.
  induction 1 as [|b ob Hb _ IH]; [apply onChain_here|].
  destruct (decide (b = a)) as [->|Hne]; [apply onChain_here|].
  simpl in Hb. rewrite lookup_insert_ne in Hb by done.
  by apply (onChain_up h a b ob).
Qed.

(** X13: when [setProto] returns without an error for a prototype other
    than the current one, the object is extensible, only its prototype field
    has changed, and the object is neither the new prototype nor one of its
    ancestors, before and after the change: a committed link never closes a
    cycle through the object. *)
Theorem setProto_commit (fuel : nat) (h : Heap) (a : addr) (o : Object)
    (p : option addr) (h' : Heap) :
  objs h !! a = Some o →
  prototype o ≠ p →
  setProto fuel h a p = Ret (h', None) →
  extensible o = true ∧
  h' = setObj h a (withPrototype o p) ∧
  ¬ onChain h a p ∧ ¬ onChain h' a p.
Proof.
  intros Ho Hne Hset. unfold setProto in Hset. rewrite Ho in Hset. simpl in Hset.
  rewrite Object_SameAs_ne in Hset by done.
  destruct (extensible o); simpl in Hset; [|discriminate].
  inv_bind Hset. destruct x; [discriminate|]. injection Hset as <-.
  apply protoChainHas_false in Hx.
  split; [done|]. split; [done|]. split; [done|].
  intros Hon. by apply onChain_setObj in Hon.
Qed.

Lemma setProto_commit_witness :
  extensible ChainSample.objA = true ∧
  setObj ChainSample.h 1 (withPrototype ChainSample.objA (Some 3%positive))
    = setObj ChainSample.h 1 (withPrototype ChainSample.objA (Some 3%positive)) ∧
  ¬ onChain ChainSample.h 1 (Some 3%positive) ∧
  ¬ onChain (setObj ChainSample.h 1 (withPrototype ChainSample.objA (Some 3%positive)))
      1 (Some 3%positive).
Proof.
  apply (setProto_commit 5 ChainSample.h 1 ChainSample.objA (Some 3%positive)).
  - reflexivity.
  - discriminate.
  - reflexivity.
Defined.

(** ** Sealing an object *)

(** X14: after [preventExtensions] the object reports that it is not
    extensible and keeps every own entry, and it takes nothing new:
    [setProto] to another prototype returns the not-extensible error,
    [defineOwnProperty] on a name without a value fails, and [putStr] of a
    name that neither the object nor its chain has is rejected, each time with
    the heap untouched. *)
Theorem preventExtensions_seals (SameAs : val → Value → bool)
    (propGetter propSetter : Heap → addr → Value → option (option addr))
    (fuel : nat) (h : Heap) (a : addr) (o : Object) :
  objs h !! a = Some o →
  ∃ h',
    preventExtensions h a = Ret h' ∧
    isExtensible h' a = Ret false ∧
    objs h' !! a = Some (withExtensible o false) ∧
    (∀ name, getOwnPropStr (withExtensible o false) name = getOwnPropStr o name) ∧
    (∀ p, prototype o ≠ p → setProto fuel h' a p = Ret (h', Some ErrNotExtensible)) ∧
    (∀ name d throw, valueAt o name = None →
       defineOwnProperty SameAs propGetter propSetter h' a name d throw
       = if throw then Raise h' ErrPlain else Ret (h', false)) ∧
    (∀ name v throw, values o !! name = None → name ≠ __proto__ →
       inheritedProp fuel h' o name = Ret None →
       putStr fuel h' a name v throw
       = if throw then Raise h' ErrPlain else Ret PutRejected).
Proof.
  intros Ho. unfold preventExtensions. rewrite Ho. simpl. eexists. split; [done|].
  assert (Ha : objs (setObj h a (withExtensible o false)) !! a
               = Some (withExtensible o false)).
  { simpl. by rewrite lookup_insert_eq. }
  split; [unfold isExtensible; by rewrite Ha|]. split; [done|]. split; [done|].
  split; [|split].
  - intros p Hne. unfold setProto. rewrite Ha. simpl.
    by rewrite Object_SameAs_ne.
  - intros name d throw Hat. unfold defineOwnProperty, _defineOwnProperty.
    rewrite Ha. simpl. unfold valueAt in *. simpl. rewrite Hat. simpl.
    by destruct throw.
  - intros name v throw Hk Hname Hinh. unfold putStr. rewrite Ha. simpl.
    rewrite Hk, (proj2 (String.eqb_neq _ _) Hname).
    unfold inheritedProp in *. simpl. rewrite Hinh. simpl. by destruct throw.
Qed.

Lemma preventExtensions_seals_witness :
  ∃ h',
    preventExtensions ChainSample.h 3 = Ret h' ∧
    isExtensible h' 3 = Ret false ∧
    objs h' !! 3%positive = Some (withExtensible ChainSample.objC false) ∧
    (∀ name, getOwnPropStr (withExtensible ChainSample.objC false) name
             = getOwnPropStr ChainSample.objC name) ∧
    (∀ p, prototype ChainSample.objC ≠ p →
          setProto 5 h' 3 p = Ret (h', Some ErrNotExtensible)) ∧
    (∀ name d throw, valueAt ChainSample.objC name = None →
       defineOwnProperty FrozenSample.SameAs FrozenSample.noAccessor
         FrozenSample.noAccessor h' 3 name d throw
       = if throw then Raise h' ErrPlain else Ret (h', false)) ∧
    (∀ name v throw, values ChainSample.objC !! name = None → name ≠ __proto__ →
       inheritedProp 5 h' ChainSample.objC name = Ret None →
       putStr 5 h' 3 name v throw
       = if throw then Raise h' ErrPlain else Ret PutRejected).
Proof.
  exact (preventExtensions_seals FrozenSample.SameAs FrozenSample.noAccessor
           FrozenSample.noAccessor 5 ChainSample.h 3 ChainSample.objC eq_refl).
Defined.

(** ** Storing a property with given flags *)

(** X15: [_putProp] of a language value makes the name readable: [getStr]
    returns the value; with [writable=false] the new property refuses
    assignment, and with [configurable=false] it refuses to be deleted. *)
Theorem _putProp_then_read (fuel : nat) (h : Heap) (a : addr) (o : Object)
    (name : string) (v : val) (w e c : bool) :
  objs h !! a = Some o →
  (∀ l, v ≠ valuePropertyPtr l) →
  ∃ h' prop,
    _putProp h a name (Some v) w e c = Ret (h', prop) ∧
    getStr (S fuel) h' a name = Ret (GetVal (Some v)) ∧
    (w = false → ∀ x, putStr fuel h' a name x false = Ret PutRejected) ∧
    (c = false → deleteStr h' a name false = Ret (h', false)).
Proof.
  intros Ho Hv. unfold _putProp, valueProp.
  destruct (w && e && c) eqn:Hflags.
  - unfold _put. rewrite Ho. simpl. eexists _, _. split; [done|].
    apply andb_true_iff in Hflags as [Hwe ->]. apply andb_true_iff in Hwe as [-> ->].
    split; [|split; discriminate].
    eapply getStr_own_plain; [simpl; by rewrite lookup_insert_eq | | done].
    by apply valueAt_insert_eq.
  - unfold _put. simpl. rewrite Ho. simpl. eexists _, _. split; [done|].
    split; [|split].
    + unfold getStr. simpl. rewrite lookup_insert_eq. simpl.
      unfold getOwnPropStr, valueAt. simpl. rewrite lookup_insert_eq. simpl.
      by rewrite lookup_insert_eq.
    + intros -> x. unfold putStr. simpl. rewrite lookup_insert_eq. simpl.
      rewrite lookup_insert_eq. simpl. by rewrite lookup_insert_eq.
    + intros ->. unfold deleteStr. simpl. rewrite lookup_insert_eq. simpl.
      rewrite lookup_insert_eq. simpl. by rewrite lookup_insert_eq.
Qed.

Lemma _putProp_then_read_witness :
  ∃ h' prop,
    _putProp ChainSample.h 3 "k" (Some (valueInt 1)) false true false = Ret (h', prop) ∧
    getStr 6 h' 3 "k" = Ret (GetVal (Some (valueInt 1))) ∧
    (false = false → ∀ x, putStr 5 h' 3 "k" x false = Ret PutRejected) ∧
    (false = false → deleteStr h' 3 "k" false = Ret (h', false)).
Proof.
  apply (_putProp_then_read 5 ChainSample.h 3 ChainSample.objC "k" (valueInt 1)
           false true false eq_refl).
  intros l. discriminate.
Defined.

(** X16: [_putProp] keeps [values] and [propNames] of the receiver in step,
    provided what it stores is not the nil interface (a value that is not
    nil, or flags that call for a record). *)
Theorem _putProp_keysInSync (h : Heap) (a : addr) (o : Object) (name : string)
    (v : Value) (w e c : bool) (h' : Heap) (prop : Value) :
  objs h !! a = Some o →
  keysInSync o →
  v ≠ None ∨ w && e && c = false →
  _putProp h a name v w e c = Ret (h', prop) →
  ∃ o', objs h' !! a = Some o' ∧ keysInSync o' ∧ valueAt o' name = prop ∧ prop ≠ None.
Proof.
  intros Ho Hsync Hnil Hput. unfold _putProp, valueProp in Hput.
  assert (Hstore : ∀ h1 x, objs h1 !! a = Some o → x ≠ None →
            _put h1 a name x ≫= (λ h2, Ret (h2, x)) = Ret (h', prop) →
            ∃ o', objs h' !! a = Some o' ∧ keysInSync o' ∧ valueAt o' name = prop ∧
                  prop ≠ None).
  { intros h1 x Ho1 Hx H. unfold _put in H. rewrite Ho1 in H. simpl in H.
    injection H as <- <-. eexists. split; [simpl; by rewrite lookup_insert_eq|].
    split; [|split; [by apply valueAt_insert_eq | done]].
    destruct (values o !! name) eqn:Hname.
    - apply keysInSync_overwrite; [done | by rewrite Hname | done].
    - by apply keysInSync_append. }
  destruct (w && e && c).
  - apply (Hstore h v); [done | by destruct Hnil | done].
  - eapply (Hstore _ (Some (valuePropertyPtr (fresh (dom (props h))))));
      [| |exact Hput]; done.
Qed.

Lemma keysInSync_objC : keysInSync ChainSample.objC.
Proof.
  apply keysInSync_plain; [apply NoDup_nil_2 | intros k Hk; by apply elem_of_nil in Hk].
Defined.

Lemma _putProp_keysInSync_witness :
  ∃ o',
    objs (setObj ChainSample.h 3
            (withValues ChainSample.objC
               (<["k" := Some (valueInt 1)]> (values ChainSample.objC))
               (propNames ChainSample.objC ++ ["k"]))) !! 3%positive = Some o' ∧
    keysInSync o' ∧ valueAt o' "k" = Some (valueInt 1) ∧ Some (valueInt 1) ≠ None.
Proof.
  apply (_putProp_keysInSync ChainSample.h 3 ChainSample.objC "k" (Some (valueInt 1))
           true true true
           (setObj ChainSample.h 3
              (withValues ChainSample.objC
                 (<["k" := Some (valueInt 1)]> (values ChainSample.objC))
                 (propNames ChainSample.objC ++ ["k"])))
           (Some (valueInt 1))).
  - reflexivity.
  - exact keysInSync_objC.
  - left. discriminate.
  - reflexivity.
Defined.

(** ** Weak maps: removal, consistency, reclamation *)

Lemma weakCollections_add_elem_of_iff colls c x :
  x ∈ weakCollections_add colls c ↔ x ∈ colls ∨ x = c.
Proof.
  unfold weakCollections_add. destruct (registered c colls) eqn:E.
  - apply registered_elem_of in E. split; [by left | by intros [?| ->]].
  - rewrite elem_of_app, list_elem_of_singleton. done.
Qed.

Lemma weakCollections_remove_elem_of cap colls c x :
  NoDup colls → x ∈ weakCollections_remove cap colls c ↔ x ∈ colls ∧ x ≠ c.
Proof.
  intros Hnd. unfold weakCollections_remove. destruct (_ && _).
  - rewrite list_elem_of_filter. split; intros [? ?]; by split.
  - destruct (decide (c ∈ colls)) as [Hin|Hout].
    + destruct (swapRemove_perm c [] colls Hin) as (rest' & Hp & Hs).
      rewrite Hs. simpl. rewrite Hp in Hnd. apply NoDup_cons in Hnd as [Hc _].
      rewrite Hp, elem_of_cons. split.
      * intros Hx. split; [by right | by intros ->].
      * by intros [[->|?] ?].
    + rewrite swapRemove_absent by done. simpl. split.
      * intros Hx. split; [done | by intros ->].
      * by intros [? _].
Qed.

(** X17: on a registry without duplicates, [weakCollections.remove] (in
    both of its strategies, whatever the capacity) leaves exactly the other
    collections: the removed one is gone, every other one is still listed,
    and nothing is listed twice. *)
Theorem weakCollections_remove_exact (cap : nat) (colls : list wmid) (c : wmid) :
  NoDup colls →
  NoDup (weakCollections_remove cap colls c) ∧
  (c ∉ weakCollections_remove cap colls c) ∧
  ∀ x, x ∈ weakCollections_remove cap colls c ↔ x ∈ colls ∧ x ≠ c.
Proof.
  intros Hnd. split; [by apply weakCollections_remove_NoDup|]. split.
  - intros Hc. apply weakCollections_remove_elem_of in Hc; [|done]. by destruct Hc.
  - intros x. by apply weakCollections_remove_elem_of.
Qed.

Lemma weakCollections_remove_exact_witness :
  NoDup (weakCollections_remove 32 [1; 2; 3]%positive 2%positive) ∧
  (2%positive ∉ weakCollections_remove 32 [1; 2; 3]%positive 2%positive) ∧
  ∀ x, x ∈ weakCollections_remove 32 [1; 2; 3]%positive 2%positive ↔
       x ∈ [1; 2; 3]%positive ∧ x ≠ 2%positive.
Proof.
  apply (weakCollections_remove_exact 32 [1; 2; 3]%positive 2%positive).
  apply (bool_decide_unpack _). by vm_compute.
Defined.

(** What [weakMap.set] leaves behind: the registry [r] of the key, the value
    under [r] in the map, the map listed in [r]. *)
Lemma weakMap_set_Ret h m k v h' o :
  objs h !! k = Some o →
  weakMap_set h m k v = Ret h' →
  ∃ r data colls,
    wmaps h !! m = Some data ∧
    (weakColls o = Some r ∧ regs h !! r = Some colls ∨
     weakColls o = None ∧ regs h !! r = None ∧ colls = []) ∧
    objs h' = <[k := withWeakColls o (Some r)]> (objs h) ∧
    props h' = props h ∧
    regs h' = <[r := weakCollections_add colls m]> (regs h) ∧
    wmaps h' = <[m := <[r := v]> data]> (wmaps h).
Proof.
  intros Ho Hset. unfold weakMap_set, getWeakCollRefs in Hset. rewrite Ho in Hset.
  simpl in Hset. destruct (weakColls o) as [r|] eqn:Hw; simpl in Hset.
  - inv_bind Hset. inv_bind Hset. injection Hset as <-. simpl in *.
    exists r, x, x0. repeat split; try done; [by left|].
    simpl. rewrite insert_id; [done|]. rewrite Ho. f_equal.
    destruct o; simpl in *; by subst.
  - inv_bind Hset. inv_bind Hset. injection Hset as <-. simpl in *.
    rewrite lookup_insert_eq in Hx0. injection Hx0 as <-.
    exists (fresh (dom (regs h))), x, []. repeat split; try done.
    + right. repeat split; try done. apply not_elem_of_dom, is_fresh.
    + simpl. by rewrite insert_insert_eq.
Qed.



Lemma consistentMaps_set R W r colls m data v :
  consistentMaps R W →
  W !! m = Some data →
  (R !! r = Some colls ∨ R !! r = None ∧ colls = []) →
  consistentMaps (<[r := weakCollections_add colls m]> R) (<[m := <[r := v]> data]> W).
Proof.
  intros [Hnd Hagree] Hm Hr.
  assert (Hcolls : NoDup colls).
  { destruct Hr as [Hr|[_ ->]]; [by apply (Hnd r) | apply NoDup_nil_2]. }
  assert (Hold : ∀ m' data', W !! m' = Some data' → is_Some (data' !! r) ↔ m' ∈ colls).
  { intros m' data' Hm'. rewrite (Hagree m' data' r Hm').
    destruct Hr as [Hr|[Hr ->]]; rewrite Hr.
    - split; [by intros (? & [= <-] & ?) | intros ?; by eexists].
    - split; [by intros (? & [=] & _) | by intros ?%elem_of_nil]. }
  split.
  - intros r' colls'. destruct (decide (r = r')) as [<-|Hne].
    + rewrite lookup_insert_eq. intros [= <-]. by apply weakCollections_add_NoDup.
    + rewrite lookup_insert_ne by done. apply Hnd.
  - intros m' data' r'. destruct (decide (m = m')) as [<-|Hm'].
    + rewrite lookup_insert_eq. intros [= <-].
      destruct (decide (r = r')) as [<-|Hne].
      * rewrite !lookup_insert_eq. split; [|by eexists].
        intros _. eexists. split; [done|]. apply weakCollections_add_elem_of.
      * rewrite !lookup_insert_ne by done. by apply Hagree.
    + rewrite lookup_insert_ne by done. intros Hdata.
      destruct (decide (r = r')) as [<-|Hne].
      * rewrite lookup_insert_eq, (Hold m' data' Hdata). split.
        -- intros Hin. eexists. split; [done|].
           apply weakCollections_add_elem_of_iff. by left.
        -- intros (? & [= <-] & [?|?]%weakCollections_add_elem_of_iff); congruence.
      * rewrite lookup_insert_ne by done. by apply Hagree.
Qed.

(** X19: [weakMap.set] keeps registries and maps in agreement: if before the
    call every registry lists each map at most once and a map holds an entry
    under a registry's id exactly when the registry lists the map, the same
    is true afterwards. *)
Theorem weakMap_set_consistent (h : Heap) (m : wmid) (k : addr) (v : Value)
    (o : Object) (h' : Heap) :
  objs h !! k = Some o →
  weakConsistent h →
  weakMap_set h m k v = Ret h' →
  weakConsistent h'.
Proof.
  intros Ho Hcons Hset.
  destruct (weakMap_set_Ret _ _ _ _ _ _ Ho Hset)
    as (r & data & colls & Hm & Hr & _ & _ & Hregs & Hmaps).
  unfold weakConsistent. rewrite Hregs, Hmaps.
  apply consistentMaps_set; [done | done |].
  destruct Hr as [[_ ?]|(_ & ? & ?)]; [by left | by right].
Qed.

Lemma weakSample_consistent : weakConsistent WeakSample.h.
Proof.
  unfold weakConsistent, WeakSample.h. simpl. split.
  - intros r colls Hr. by rewrite lookup_empty in Hr.
  - intros m data r Hm. simpl in Hm.
    destruct (decide (m = 1%positive)) as [->|Hne].
    + rewrite lookup_insert_eq in Hm. injection Hm as <-. rewrite lookup_empty.
      split; [by intros [? ?] | intros (? & Hr & _); by rewrite lookup_empty in Hr].
    + rewrite lookup_insert_ne in Hm by done. by rewrite lookup_empty in Hm.
Defined.

Lemma weakMap_set_consistent_witness :
  ∃ h', weakMap_set WeakSample.h 1 2 (Some (valueInt 42)) = Ret h' ∧ weakConsistent h'.
Proof.
  eexists. split; [reflexivity|].
  exact (weakMap_set_consistent WeakSample.h 1 2 (Some (valueInt 42))
           (Sample.plain None true []) _ eq_refl weakSample_consistent eq_refl).
Defined.

Lemma consistentMaps_remove R W r colls m data cap :
  consistentMaps R W →
  W !! m = Some data →
  R !! r = Some colls →
  consistentMaps (<[r := weakCollections_remove cap colls m]> R)
                 (<[m := delete r data]> W).
Proof.
  intros [Hnd Hagree] Hm Hr.
  assert (Hcolls : NoDup colls) by (by apply (Hnd r)).
  split.
  - intros r' colls'. destruct (decide (r = r')) as [<-|Hne].
    + rewrite lookup_insert_eq. intros [= <-]. by apply weakCollections_remove_NoDup.
    + rewrite lookup_insert_ne by done. apply Hnd.
  - intros m' data' r'. destruct (decide (m = m')) as [<-|Hm'].
    + rewrite lookup_insert_eq. intros [= <-].
      destruct (decide (r = r')) as [<-|Hne].
      * rewrite lookup_delete_eq, lookup_insert_eq. split; [by intros [? ?]|].
        intros (? & [= <-] & Hin). apply weakCollections_remove_elem_of in Hin; [|done].
        by destruct Hin.
      * rewrite lookup_delete_ne, lookup_insert_ne by done. by apply Hagree.
    + rewrite lookup_insert_ne by done. intros Hdata.
      destruct (decide (r = r')) as [<-|Hne].
      * rewrite lookup_insert_eq, (Hagree m' data' r Hdata), Hr. split.
        -- intros (? & [= <-] & Hin). eexists. split; [done|].
           by apply weakCollections_remove_elem_of.
        -- intros (? & [= <-] & Hin). eexists. split; [done|].
           apply weakCollections_remove_elem_of in Hin; [|done]. by destruct Hin.
      * rewrite lookup_insert_ne by done. by apply Hagree.
Qed.

(** X20: [weakMap.remove] keeps registries and maps in agreement, whether
    or not the map held an entry for the key. *)
Theorem weakMap_remove_consistent (cap : nat) (h : Heap) (m : wmid) (key : addr)
    (h' : Heap) (existed : bool) :
  weakConsistent h →
  weakMap_remove cap h m key = Ret (h', existed) →
  weakConsistent h'.
Proof.
  intros Hcons Hrem. unfold weakMap_remove in Hrem. inv_bind Hrem.
  destruct (weakColls x) as [r|]; [|by injection Hrem as <- _].
  inv_bind Hrem. destruct (x0 !! r); [|by injection Hrem as <- _].
  inv_bind Hrem. injection Hrem as <- _. simpl in *.
  unfold weakConsistent. simpl. by apply consistentMaps_remove.
Qed.

Lemma registrySample_consistent : weakConsistent RegistrySample.h.
Proof.
  unfold weakConsistent, RegistrySample.h. simpl. split.
  - intros r colls. destruct (decide (r = 1%positive)) as [->|Hne].
    + rewrite lookup_insert_eq. intros [= <-]. apply NoDup_singleton.
    + rewrite lookup_insert_ne by done. by rewrite lookup_empty.
  - intros m data r. destruct (decide (m = 1%positive)) as [->|Hne].
    + rewrite lookup_insert_eq. intros [= <-].
      destruct (decide (r = 1%positive)) as [->|Hr].
      * rewrite !lookup_insert_eq. split; [|by eexists].
        intros _. eexists. split; [done|]. by apply list_elem_of_singleton.
      * rewrite !lookup_insert_ne, !lookup_empty by done.
        split; [by intros [? ?] | by intros (? & ? & _)].
    + rewrite lookup_insert_ne by done. by rewrite lookup_empty.
Defined.

Lemma weakMap_remove_consistent_witness :
  ∃ h',
    weakMap_remove 0 RegistrySample.h 1 2 = Ret (h', true) ∧ weakConsistent h'.
Proof.
  eexists. split; [reflexivity|].
  exact (weakMap_remove_consistent 0 RegistrySample.h 1 2 _ true
           registrySample_consistent eq_refl).
Defined.

Lemma removePtrAll_Ret h colls id :
  (∀ m, m ∈ colls → is_Some (wmaps h !! m)) →
  ∃ h',
    removePtrAll h colls id = Ret h' ∧
    objs h' = objs h ∧ props h' = props h ∧ regs h' = regs h ∧
    ∀ m, wmaps h' !! m
         = (λ data, if decide (m ∈ colls) then delete id data else data) <$> wmaps h !! m.
Proof.
  revert h. induction colls as [|c colls IH]; intros h Hall; simpl.
  - exists h. repeat split; try done. intros m.
    destruct (wmaps h !! m); [|done]. cbn [fmap option_fmap option_map].
    by destruct (decide (m ∈ [])) as [Hin%elem_of_nil|].
  - destruct (Hall c) as [data Hc]; [by left|].
    unfold weakMap_removePtr. rewrite Hc. simpl.
    destruct (IH (setData h c (delete id data))) as (h' & -> & Ho & Hp & Hr & Hw).
    { intros m Hm. simpl. destruct (decide (c = m)) as [<-|Hne].
      - rewrite lookup_insert_eq. by eexists.
      - rewrite lookup_insert_ne by done. apply Hall. by right. }
    exists h'. repeat split; try done. intros m. rewrite Hw. simpl.
    destruct (decide (c = m)) as [<-|Hne].
    + rewrite lookup_insert_eq, Hc. simpl. f_equal.
      rewrite (decide_True (P := c ∈ c :: colls)) by (by left).
      destruct (decide (c ∈ colls)); [|done].
      apply map_eq. intros i. destruct (decide (id = i)) as [<-|?].
      * by rewrite !lookup_delete_eq.
      * by rewrite !lookup_delete_ne.
    + rewrite lookup_insert_ne by done. destruct (wmaps h !! m); simpl; [|done].
      f_equal. destruct (decide (m ∈ colls)) as [Hin|Hout].
      * by rewrite decide_True by (by right).
      * rewrite decide_False; [done|]. by intros [->|?]%elem_of_cons.
Qed.

(** X21: when the finalizer of a registry runs, every weak map that the
    registry lists loses its entry under the registry's id, the registry is
    emptied, and nothing else changes: the other entries of those maps, the
    maps that are not listed, the objects and the other registries are as
    before.  If registries and maps agreed before, no map at all holds an
    entry under the id afterwards, and they still agree. *)
Theorem finalizeObjectWeakRefs_clears (h : Heap) (r : regid) (colls : list wmid) :
  regs h !! r = Some colls →
  (∀ m, m ∈ colls → is_Some (wmaps h !! m)) →
  ∃ h',
    finalizeObjectWeakRefs h r = Ret h' ∧
    regs h' = <[r := []]> (regs h) ∧
    objs h' = objs h ∧
    (∀ m data', wmaps h' !! m = Some data' → m ∈ colls → data' !! r = None) ∧
    (∀ m, m ∉ colls → wmaps h' !! m = wmaps h !! m) ∧
    (∀ m data data' r', wmaps h !! m = Some data → wmaps h' !! m = Some data' →
       r' ≠ r → data' !! r' = data !! r') ∧
    (weakConsistent h →
       (∀ m data', wmaps h' !! m = Some data' → data' !! r = None) ∧
       weakConsistent h').
Proof.
  intros Hr Hall. unfold finalizeObjectWeakRefs. rewrite Hr. simpl.
  destruct (removePtrAll_Ret h colls r Hall) as (h1 & -> & Ho & Hp & Hregs & Hw).
  simpl. eexists. split; [done|]. simpl.
  assert (Hin : ∀ m data', wmaps h1 !! m = Some data' → m ∈ colls → data' !! r = None).
  { intros m data' Hm Hmc. rewrite Hw in Hm. destruct (wmaps h !! m); simpl in Hm; [|done].
    injection Hm as <-. rewrite decide_True by done. by rewrite lookup_delete_eq. }
  assert (Hout : ∀ m, m ∉ colls → wmaps h1 !! m = wmaps h !! m).
  { intros m Hm. rewrite Hw. destruct (wmaps h !! m); simpl; [|done].
    by rewrite decide_False. }
  assert (Hother : ∀ m data data' r', wmaps h !! m = Some data →
            wmaps h1 !! m = Some data' → r' ≠ r → data' !! r' = data !! r').
  { intros m data data' r' Hm Hm' Hne. rewrite Hw, Hm in Hm'. simpl in Hm'.
    injection Hm' as <-. destruct (decide (m ∈ colls)); [|done].
    by rewrite lookup_delete_ne. }
  split; [by rewrite Hregs|]. split; [done|]. split; [done|]. split; [done|].
  split; [done|].
  intros [Hnd Hagree].
  assert (Hnone : ∀ m data', wmaps h1 !! m = Some data' → data' !! r = None).
  { intros m data' Hm. destruct (decide (m ∈ colls)) as [Hmc|Hmc]; [by apply (Hin m)|].
    rewrite (Hout m Hmc) in Hm.
    destruct (data' !! r) eqn:Hd; [|done].
    assert (Hs : is_Some (data' !! r)) by (by rewrite Hd).
    apply (Hagree m data' r Hm) in Hs as (colls' & Hr' & Hm').
    rewrite Hr in Hr'. by injection Hr' as <-. }
  split; [done|]. split; simpl.
  - intros r' colls'. rewrite Hregs. destruct (decide (r = r')) as [<-|Hne].
    + rewrite lookup_insert_eq. intros [= <-]. apply NoDup_nil_2.
    + rewrite lookup_insert_ne by done. apply Hnd.
  - intros m data' r' Hm. rewrite Hregs. destruct (decide (r = r')) as [<-|Hne].
    + rewrite lookup_insert_eq, (Hnone m data' Hm). split; [by intros [? ?]|].
      by intros (? & [= <-] & ?%elem_of_nil).
    + rewrite lookup_insert_ne by done.
      pose proof Hm as Hm0. rewrite Hw in Hm0.
      destruct (wmaps h !! m) as [data|] eqn:Hd; simpl in Hm0; [|done].
      rewrite (Hother m data data' r' Hd Hm) by done. by apply Hagree.
Qed.

Lemma finalizeObjectWeakRefs_clears_witness :
  ∃ h',
    finalizeObjectWeakRefs RegistrySample.h 1 = Ret h' ∧
    regs h' = <[1%positive := []]> (regs RegistrySample.h) ∧
    objs h' = objs RegistrySample.h ∧
    (∀ m data', wmaps h' !! m = Some data' → m ∈ [1%positive] →
       data' !! 1%positive = None) ∧
    (∀ m, m ∉ [1%positive] → wmaps h' !! m = wmaps RegistrySample.h !! m) ∧
    (∀ m data data' r', wmaps RegistrySample.h !! m = Some data →
       wmaps h' !! m = Some data' → r' ≠ 1%positive → data' !! r' = data !! r') ∧
    (weakConsistent RegistrySample.h →
       (∀ m data', wmaps h' !! m = Some data' → data' !! 1%positive = None) ∧
       weakConsistent h').
Proof.
  apply (finalizeObjectWeakRefs_clears RegistrySample.h 1 [1%positive]).
  - reflexivity.
  - intros m Hm. apply list_elem_of_singleton in Hm as ->. by eexists.
Defined.

(** X22: [weakMap.set] for one key object does not disturb the entry of
    another: for two objects whose registries (where they have one) are
    different and registered in the heap, what [get] answers for the first
    is the same before and after a [set] for the second. *)
Theorem weakMap_set_other_key (h : Heap) (m : wmid) (k1 k2 : addr) (v : Value)
    (o1 o2 : Object) (h' : Heap) :
  objs h !! k1 = Some o1 →
  objs h !! k2 = Some o2 →
  k1 ≠ k2 →
  (∀ r, weakColls o1 = Some r → is_Some (regs h !! r) ∧ weakColls o2 ≠ Some r) →
  weakMap_set h m k2 v = Ret h' →
  weakMap_get h' m k1 = weakMap_get h m k1.
Proof.
  intros Ho1 Ho2 Hne Hreg Hset.
  destruct (weakMap_set_Ret _ _ _ _ _ _ Ho2 Hset)
    as (r & data & colls & Hm & Hr & Hobjs & _ & _ & Hmaps).
  unfold weakMap_get. rewrite Hobjs, lookup_insert_ne, Ho1 by done. simpl.
  destruct (weakColls o1) as [r1|] eqn:Hw1; [|done].
  destruct (Hreg r1 eq_refl) as [[c1 Hc1] Hdiff].
  rewrite Hmaps, lookup_insert_eq, Hm. simpl.
  rewrite lookup_insert_ne; [done|].
  intros ->. destruct Hr as [[Hw2 _]|(_ & Hnone & _)]; congruence.
Qed.

Lemma weakMap_set_other_key_witness :
  ∃ h',
    weakMap_set RegistrySample.h 1 3 (Some (valueInt 7)) = Ret h' ∧
    weakMap_get h' 1 2 = weakMap_get RegistrySample.h 1 2.
Proof.
  eexists. split; [reflexivity|].
  apply (weakMap_set_other_key RegistrySample.h 1 2 3 (Some (valueInt 7))
           RegistrySample.key (Sample.plain None true [])).
  - reflexivity.
  - reflexivity.
  - discriminate.
  - intros r Hr. injection Hr as <-. split; [by eexists | discriminate].
  - reflexivity.
Defined.

(** X23: each of the four methods of [WeakMap.prototype], called on an
    object that is no weak map object, raises the incompatible-receiver type
    error before it looks at its arguments, and leaves the heap as it was. *)
Theorem weakMapProto_incompatible_receiver (cap : nat) (h : Heap)
    (call : FunctionCall) (a : addr) (o : Object) :
  This call = Some (ObjectPtr (Some a)) →
  objs h !! a = Some o →
  wm o = None →
  weakMapProto_set h call = Raise h ErrReceiver ∧
  weakMapProto_get h call = Raise h ErrReceiver ∧
  weakMapProto_has h call = Raise h ErrReceiver ∧
  weakMapProto_delete cap h call = Raise h ErrReceiver.
Proof.
  intros Hthis Ho Hwm.
  assert (Hrecv : weakMapReceiver h call = Raise h ErrReceiver).
  { unfold weakMapReceiver. rewrite Hthis. simpl. rewrite Ho. simpl. by rewrite Hwm. }
  unfold weakMapProto_set, weakMapProto_get, weakMapProto_has, weakMapProto_delete.
  by rewrite Hrecv.
Qed.

Lemma weakMapProto_incompatible_receiver_witness :
  weakMapProto_set RegistrySample.h (mkCall (Some (ObjectPtr (Some 2%positive))) [])
    = Raise RegistrySample.h ErrReceiver ∧
  weakMapProto_get RegistrySample.h (mkCall (Some (ObjectPtr (Some 2%positive))) [])
    = Raise RegistrySample.h ErrReceiver ∧
  weakMapProto_has RegistrySample.h (mkCall (Some (ObjectPtr (Some 2%positive))) [])
    = Raise RegistrySample.h ErrReceiver ∧
  weakMapProto_delete 0 RegistrySample.h (mkCall (Some (ObjectPtr (Some 2%positive))) [])
    = Raise RegistrySample.h ErrReceiver.
Proof.
  apply (weakMapProto_incompatible_receiver 0 RegistrySample.h
           (mkCall (Some (ObjectPtr (Some 2%positive))) []) 2 RegistrySample.key);
    reflexivity.
Defined.

(** X24: through the methods of [WeakMap.prototype]: [set] with an object
    key returns the receiver it was called on and stores the second argument,
    so that [get] with the same key returns that argument (undefined when
    the argument was the nil interface) and [has] returns true. *)
Theorem weakMapProto_set_then_get (h : Heap) (recv : Value) (m : wmid) (k : addr)
    (o : Object) (v : Value) (rest : list Value) :
  weakMapReceiver h (mkCall recv (Some (ObjectPtr (Some k)) :: v :: rest)) = Ret m →
  objs h !! k = Some o →
  is_Some (wmaps h !! m) →
  (∀ r, weakColls o = Some r → is_Some (regs h !! r)) →
  ∃ h',
    weakMapProto_set h (mkCall recv (Some (ObjectPtr (Some k)) :: v :: rest))
      = Ret (h', recv) ∧
    (∀ args, weakMapReceiver h' (mkCall recv (Some (ObjectPtr (Some k)) :: args)) = Ret m →
       weakMapProto_get h' (mkCall recv (Some (ObjectPtr (Some k)) :: args))
         = Ret (match v with None => _undefined | Some x => Some x end) ∧
       weakMapProto_has h' (mkCall recv (Some (ObjectPtr (Some k)) :: args))
         = Ret valueTrue).
Proof.
  intros Hrecv Ho [data Hm] Hreg.
  assert (Hset : ∃ h', weakMap_set h m k v = Ret h').
  { unfold weakMap_set, getWeakCollRefs. rewrite Ho. simpl.
    destruct (weakColls o) as [r|] eqn:Hw; simpl.
    - destruct (Hreg r eq_refl) as [colls Hcolls]. rewrite Hm. simpl. rewrite Hcolls.
      simpl. by eexists.
    - rewrite Hm. simpl. rewrite lookup_insert_eq. simpl. by eexists. }
  destruct Hset as [h' Hset].
  destruct (weakMap_set_Ret _ _ _ _ _ _ Ho Hset)
    as (r & data' & colls & Hm' & _ & Hobjs & _ & _ & Hmaps).
  exists h'. unfold weakMapProto_set. rewrite Hrecv. simpl.
  unfold Argument. simpl. rewrite Hset. simpl. split; [done|].
  intros args Hrecv'. unfold weakMapProto_get, weakMapProto_has. rewrite Hrecv'.
  simpl. unfold weakMap_get, weakMap_has.
  rewrite Hobjs, lookup_insert_eq. simpl. rewrite Hmaps, lookup_insert_eq. simpl.
  rewrite lookup_insert_eq. simpl. by split.
Qed.

Lemma weakMapProto_set_then_get_witness :
  ∃ h',
    weakMapProto_set RegistrySample.h
      (mkCall (Some (ObjectPtr (Some 1%positive)))
         (Some (ObjectPtr (Some 3%positive)) :: Some (valueInt 7) :: []))
      = Ret (h', Some (ObjectPtr (Some 1%positive))) ∧
    (∀ args,
       weakMapReceiver h' (mkCall (Some (ObjectPtr (Some 1%positive)))
                             (Some (ObjectPtr (Some 3%positive)) :: args)) = Ret 1%positive →
       weakMapProto_get h' (mkCall (Some (ObjectPtr (Some 1%positive)))
                              (Some (ObjectPtr (Some 3%positive)) :: args))
         = Ret (Some (valueInt 7)) ∧
       weakMapProto_has h' (mkCall (Some (ObjectPtr (Some 1%positive)))
                              (Some (ObjectPtr (Some 3%positive)) :: args))
         = Ret valueTrue).
Proof.
  apply (weakMapProto_set_then_get RegistrySample.h (Some (ObjectPtr (Some 1%positive)))
           1 3 (Sample.plain None true []) (Some (valueInt 7)) []).
  - reflexivity.
  - reflexivity.
  - by eexists.
  - intros r Hr. discriminate Hr.
Defined.

(** ** Enumeration: shadowing, completeness, order of new keys *)

Lemma enumerate_Ret (h : Heap) (a : addr) (o : Object) (cs : list Object)
    (all rec : bool) (fuel : nat) :
  objs h !! a = Some o →
  protoChain h (prototype o) cs →
  Forall (recordsPresent h) (o :: cs) →
  length (storedItems o (propNames o)) + length (chainItems cs) + length cs < fuel →
  enumerate h a all rec ≫= drain fuel h
  = Ret (filterItems h all ∅
           (storedItems o (propNames o) ++ (if rec then chainItems cs else []))).
Proof.
  intros Ho Hchain Hrec Hfuel. unfold enumerate, _enumerate. rewrite Ho. simpl.
  by apply (enumerate_drain h a o cs).
Qed.

(** X25: an own property that is not enumerable is never yielded by an
    enumeration of enumerable keys, recursive or not, even when an object
    further up the prototype chain holds an enumerable property of the same
    name: the own key hides the inherited one. *)
Theorem enumerate_hidden_shadows (h : Heap) (a : addr) (o : Object)
    (cs : list Object) (recursive : bool) (k : string) (v : val) (fuel : nat) :
  objs h !! a = Some o →
  protoChain h (prototype o) cs →
  Forall (recordsPresent h) (o :: cs) →
  k ∈ propNames o →
  valueAt o k = Some v →
  isHidden h (mkItem k (Some v) _ENUM_UNKNOWN) = true →
  length (storedItems o (propNames o)) + length (chainItems cs) + length cs < fuel →
  ∃ items : list propIterItem,
    enumerate h a false recursive ≫= drain fuel h = Ret items ∧
    k ∉ item_name <$> items.
Proof.
  intros Ho Hchain Hrec Hk Hv Hhid Hfuel. eexists.
  split; [by apply (enumerate_Ret h a o cs)|].
  rewrite filterItems_app, fmap_app. intros [Hown|Hup]%elem_of_app.
  - apply filterItems_own_names in Hown as (_ & _ & v' & Hv' & Hshow).
    rewrite Hv in Hv'. injection Hv' as <-. destruct Hshow; congruence.
  - apply list_elem_of_fmap in Hup as (item & -> & Hitem).
    apply filterItems_not_seen in Hitem. apply Hitem.
    apply elem_of_union_l, elem_of_list_to_set, storedItems_names.
    split; [done|]. by rewrite Hv.
Qed.

Lemma enumSample_hidden :
  isHidden EnumSample.h (mkItem "b" (Some (valuePropertyPtr 1)) _ENUM_UNKNOWN) = true.
Proof. reflexivity. Qed.

Lemma enumerate_hidden_shadows_witness :
  ∃ items : list propIterItem,
    enumerate EnumSample.h 1 false true ≫= drain 10 EnumSample.h = Ret items ∧
    "b" ∉ item_name <$> items.
Proof.
  apply (enumerate_hidden_shadows EnumSample.h 1 EnumSample.child [EnumSample.parent]
           true "b" (valuePropertyPtr 1) 10 eq_refl enumSample_chain enumSample_present).
  - apply (bool_decide_unpack _). by vm_compute.
  - reflexivity.
  - reflexivity.
  - vm_compute. lia.
Defined.

Lemma filterItems_all_names h seen items k :
  k ∈ (item_name <$> filterItems h true seen items) ↔
  (k ∉ seen) ∧ k ∈ (item_name <$> items).
Proof.
  revert seen. induction items as [|it items IH]; intros seen; simpl.
  - split; [by intros ?%elem_of_nil | by intros [_ ?%elem_of_nil]].
  - destruct (decide (item_name it ∈ seen)) as [Hin|Hout].
    + rewrite IH, elem_of_cons. split; [naive_solver|].
      intros [Hk [->|?]]; [done | by split].
    + simpl. rewrite !elem_of_cons, IH. split.
      * intros [->|[Hk ?]]; [split; [done | by left]|].
        split; [set_solver | by right].
      * intros [Hk [->|?]]; [by left|].
        destruct (decide (k = item_name it)) as [->|Hne]; [by left|].
        right. split; [set_solver | done].
Qed.

Lemma chainItems_names cs k :
  k ∈ (item_name <$> chainItems cs) ↔
  ∃ o, o ∈ cs ∧ k ∈ propNames o ∧ is_Some (valueAt o k).
Proof.
  induction cs as [|o cs IH]; unfold chainItems; simpl.
  - split; [by intros ?%elem_of_nil | by intros (? & ?%elem_of_nil & _)].
  - fold (chainItems cs). rewrite fmap_app, elem_of_app, storedItems_names, IH. split.
    + intros [[? ?]|(o' & ? & ? & ?)]; [exists o | exists o']; split; try done;
        [by left | by right].
    + intros (o' & [->|?]%elem_of_cons & ? & ?); [by left|]. right. by exists o'.
Qed.

(** X26: an enumeration of all keys along the whole chain is complete and
    exact: a name is yielded if and only if the object or one of its
    ancestors lists it in [propNames] and holds a value for it. *)
Theorem enumerate_all_complete (h : Heap) (a : addr) (o : Object)
    (cs : list Object) (fuel : nat) :
  objs h !! a = Some o →
  protoChain h (prototype o) cs →
  Forall (recordsPresent h) (o :: cs) →
  length (storedItems o (propNames o)) + length (chainItems cs) + length cs < fuel →
  ∃ items : list propIterItem,
    enumerate h a true true ≫= drain fuel h = Ret items ∧
    ∀ k, k ∈ (item_name <$> items) ↔
         ∃ o', o' ∈ o :: cs ∧ k ∈ propNames o' ∧ is_Some (valueAt o' k).
Proof.
  intros Ho Hchain Hrec Hfuel. eexists.
  split; [by apply (enumerate_Ret h a o cs)|].
  intros k. rewrite filterItems_all_names.
  change (storedItems o (propNames o) ++ chainItems cs) with (chainItems (o :: cs)).
  rewrite chainItems_names. split; [by intros [_ ?] | intros ?; split; [|done]].
  apply not_elem_of_empty.
Qed.

Lemma enumerate_all_complete_witness :
  ∃ items : list propIterItem,
    enumerate EnumSample.h 1 true true ≫= drain 10 EnumSample.h = Ret items ∧
    ∀ k, k ∈ (item_name <$> items) ↔
         ∃ o', o' ∈ [EnumSample.child; EnumSample.parent] ∧ k ∈ propNames o' ∧
               is_Some (valueAt o' k).
Proof.
  apply (enumerate_all_complete EnumSample.h 1 EnumSample.child [EnumSample.parent] 10
           eq_refl enumSample_chain enumSample_present).
  vm_compute. lia.
Defined.









(** X28: after a [deleteStr] that reports success, a non-recursive
    enumeration requested from the object does not yield the deleted
    name. *)
Theorem deleteStr_then_enumerate (h : Heap) (a : addr) (o : Object) (k : string)
    (throw all : bool) (h' : Heap) (o' : Object) (cs : list Object) (fuel : nat) :
  objs h !! a = Some o →
  deleteStr h a k throw = Ret (h', true) →
  objs h' !! a = Some o' →
  protoChain h' (prototype o') cs →
  Forall (recordsPresent h') (o' :: cs) →
  length (storedItems o' (propNames o')) + length (chainItems cs) + length cs < fuel →
  ∃ items : list propIterItem,
    enumerate h' a all false ≫= drain fuel h' = Ret items ∧
    k ∉ item_name <$> items.
Proof.
  intros Ho Hdel Ho' Hchain Hrec Hfuel.
  assert (Hgone : valueAt o' k = None).
  { destruct (deleteStr_inv _ _ _ _ _ _ _ Ho Hdel)
      as [(Hk & -> & _)|[(Hk & -> & _)|(l & p & _ & _ & _ & _ & [=] & _)]].
    - rewrite Ho in Ho'. injection Ho' as <-. unfold valueAt. by rewrite Hk.
    - simpl in Ho'. rewrite lookup_insert_eq in Ho'. injection Ho' as <-.
      unfold valueAt. simpl. by rewrite lookup_delete_eq. }
  eexists. split; [by apply (enumerate_Ret h' a o' cs)|].
  rewrite app_nil_r. intros (item & -> & Hitem)%list_elem_of_fmap.
  apply filterItems_elem_of in Hitem.
  destruct (storedItems_value _ _ _ Hitem) as (_ & Hval & _ & Hsome).
  rewrite Hgone in Hval. rewrite <- Hval in Hsome. by destruct Hsome.
Qed.

Lemma recordsPresent_delete h o k ns :
  recordsPresent h o → recordsPresent h (withValues o (delete k (values o)) ns).
Proof.
  intros Hrec name l. unfold valueAt. simpl.
  destruct (decide (k = name)) as [->|Hne].
  - by rewrite lookup_delete_eq.
  - rewrite lookup_delete_ne by done. apply Hrec.
Qed.

Lemma deleteStr_then_enumerate_witness :
  ∃ items : list propIterItem,
    enumerate (_delete EnumSample.h 1 EnumSample.child "c") 1 true false
      ≫= drain 10 (_delete EnumSample.h 1 EnumSample.child "c") = Ret items ∧
    "c" ∉ item_name <$> items.
Proof.
  apply (deleteStr_then_enumerate EnumSample.h 1 EnumSample.child "c" false true
           (_delete EnumSample.h 1 EnumSample.child "c")
           (withValues EnumSample.child (delete "c" (values EnumSample.child))
              (removeFirst "c" (propNames EnumSample.child)))
           [EnumSample.parent] 10 eq_refl eq_refl eq_refl).
  - apply (protoChain_step _ 2 EnumSample.parent []); [reflexivity|].
    apply protoChain_end.
  - pose proof enumSample_present as Hp. apply Forall_cons in Hp as [Hchild Hp].
    apply Forall_cons_2; [|exact Hp].
    apply (recordsPresent_delete EnumSample.h EnumSample.child). exact Hchild.
  - vm_compute. lia.
Defined.
